(** * Provenance-tracked drawing canvas (Canvas.tsx)

    A shallow embedding of the [Canvas] component of
    [src/public/ai-benchmark/assets/Canvas.tsx]: its five registered
    mutators, its event handlers (pointer move, pointer up, clear, undo,
    redo), the session-start block, and the part of the provenance
    library ([trrack-alpha]) those handlers call. *)

From Stdlib Require Import ZArith String List Bool Lia.
From stdpp Require Import base option list gmap strings fin_maps.

Open Scope string_scope.
Open Scope list_scope.

(** ** Application state *)

(** [Lines]: one record per stroke.  Pointer coordinates and widths are
    JavaScript numbers that the component only copies and concatenates;
    they are carried as integers. *)
Record Line := mkLine {
  line_tool : string;
  line_points : list Z;
  line_width : Z;
  line_color : string
}.

Abbreviation Lines := (list Line).

Inductive Tool := Pen | Eraser.

Definition toolName (t : Tool) : string :=
  match t with Pen => "pen" | Eraser => "eraser" end.

(** [DEFAULT_THEME.colors.red[5]] of the UI toolkit. *)
Definition red5 : string := "#ff6b6b".

(** [KonvaState]; the projection [state_lines st] reads [state.lines]. *)
Record KonvaState := mkKonvaState {
  state_lines : Lines;
  state_tool : Tool;
  state_color : string;
  state_penSize : string
}.

(** ** Errors

    A handler either returns or throws.  [Diverged] stands for a parent
    walk that would never leave a cycle of a malformed graph. *)
Inductive Error :=
| DuplicateActionError
| NodeNotFoundError
| MalformedImportError
| UnregisteredActionError
| TypeError
| Diverged.

Inductive outcome (A : Type) :=
| Ok (a : A)
| Throw (e : Error).
Arguments Ok {A} a.
Arguments Throw {A} e.

#[global] Instance outcome_ret : MRet outcome := fun A a => Ok a.

#[global] Instance outcome_bind : MBind outcome := fun A B k m =>
  match m with
  | Ok a => k a
  | Throw e => Throw e
  end.

Definition isOk {A} (m : outcome A) : bool :=
  match m with Ok _ => true | Throw _ => false end.

(** ** The provenance library

    The component imports [Registry] and [initializeTrrack] from
    [./trrack-alpha/core/src/...].  The definitions of this part follow
    the written specification of that library (sections 3, 4, 6 and 7 of
    the design) rather than its code. *)

(** Modelled from the spec: the [kind] of a [HistoryNode] (section 3);
    [apply] receives it as the option [isEphemeral]. *)
Inductive NodeKind := Ephemeral | Durable.

(** Modelled from the spec: the [Invocation] object
    [{mutatorName, parameters}] a mutator handle produces (section 4.1). *)
Record Invocation := mkInvocation {
  mutatorName : string;
  parameters : Lines
}.

(** Modelled from the spec: a [HistoryNode] (section 3) in its serialized
    shape [{parentId?, kind, mutatorName?, parameters?}] (section 6), the
    node id being the key under which the graph stores it.  [label] is the
    first argument the component hands to [trrack.apply].  The timestamp
    is left out: no operation reads it. *)
Record HistoryNode := mkNode {
  parentId : option string;
  kind : NodeKind;
  label : string;
  invocation : option Invocation
}.

(** Modelled from the spec: the [ProvenanceGraph] / [SerializedGraph]
    (sections 3 and 6): all nodes by id, [rootState], [currentNodeId].
    This is the object the component reads as [trrack.graph.backend]. *)
Record ProvenanceGraph := mkGraph {
  nodes : gmap string HistoryNode;
  rootState : KonvaState;
  currentNodeId : string
}.

Abbreviation Mutator := (KonvaState -> Lines -> KonvaState).

(** Modelled from the spec: [register(name, mutatorFn) -> MutatorHandle]
    of the Action Registry (section 4.1); a duplicate name fails.  The
    handle builds an invocation and does not touch the graph. *)
Definition register (name : string) (fn : Mutator) (reg : gmap string Mutator)
  : outcome (gmap string Mutator * (Lines -> Invocation)) :=
  match reg !! name with
  | Some _ => Throw DuplicateActionError
  | None => Ok (<[name := fn]> reg, fun params => mkInvocation name params)
  end.

(** Modelled from the spec: [createRoot(initialState)] (section 4.2).  The
    root has no parent and no mutator; [rid] is the identifier assigned to
    it on creation. *)
Definition createRoot (rid : string) (initialState : KonvaState) : ProvenanceGraph :=
  mkGraph {[ rid := mkNode None Durable "Root" None ]} initialState rid.

(** Modelled from the spec: [apply(invocation, kind)] (section 4.2):
    a new node whose parent is the current node is added and becomes the
    current node.  [nid] is the identifier assigned to the new node on
    creation. *)
Definition apply (lbl : string) (inv : Invocation) (k : NodeKind) (nid : string)
  (g : ProvenanceGraph) : ProvenanceGraph :=
  mkGraph (<[nid := mkNode (Some (currentNodeId g)) k lbl (Some inv)]> (nodes g))
          (rootState g) nid.

(** Modelled from the spec: [trrack.current], the node object that
    [currentNodeId] refers to (section 3). *)
Definition current (g : ProvenanceGraph) : option HistoryNode :=
  nodes g !! currentNodeId g.

(** [isStateNode] and [isRootNode] of [@trrack/core], applied to the
    result of a property read: a node with a parent is a state node, a
    node without one is the root, and [undefined] makes the test throw. *)
Definition isStateNode (n : option HistoryNode) : outcome bool :=
  match n with
  | None => Throw TypeError
  | Some n => Ok (bool_decide (is_Some (parentId n)))
  end.

Definition isRootNode (n : option HistoryNode) : outcome bool :=
  match n with
  | None => Throw TypeError
  | Some n => Ok (bool_decide (parentId n = None))
  end.

(** The invocation a node contributes to a replay: none for the root. *)
Definition invocationOf (n : HistoryNode) : list Invocation :=
  match invocation n with
  | Some inv => [inv]
  | None => []
  end.

(** Modelled from the spec: the first half of [resolveState] (section
    4.3): walk parent links from the node back to the root and collect the
    invocation chain in root-to-node order. *)
Fixpoint invocationChain (fuel : nat) (g : ProvenanceGraph) (id : string)
  : outcome (list Invocation) :=
  match fuel with
  | 0 => Throw Diverged
  | S fuel' =>
    match nodes g !! id with
    | None => Throw NodeNotFoundError
    | Some n =>
      match parentId n with
      | None => Ok (invocationOf n)
      | Some p =>
        chain ← invocationChain fuel' g p;
        Ok (chain ++ invocationOf n)
      end
    end
  end.

(** Modelled from the spec: the second half of [resolveState]: replay each
    invocation's mutator in order, starting from the root's stored state.
    The mutator is found by name in the registry; a name that was never
    registered stops the replay. *)
Fixpoint replay (reg : gmap string Mutator) (st : KonvaState)
  (chain : list Invocation) : outcome KonvaState :=
  match chain with
  | [] => Ok st
  | inv :: rest =>
    match reg !! mutatorName inv with
    | None => Throw UnregisteredActionError
    | Some m => replay reg (m st (parameters inv)) rest
    end
  end.

(** Modelled from the spec: [resolveState(graph, nodeId)]; the component
    calls it as [trrack.getState(node)]. *)
Definition getState (reg : gmap string Mutator) (g : ProvenanceGraph)
  (id : string) : outcome KonvaState :=
  chain ← invocationChain (size (nodes g)) g id;
  replay reg (rootState g) chain.

(** Modelled from the spec: [findLastNonEphemeralAncestor(startNodeId,
    skipCount)] (section 4.4): walk parent links, count only durable
    nodes, return the node reached after skipping [skipCount] of them
    (with [skipCount = 0] the start node itself when it is durable), and
    return the root when history is exhausted. *)
Fixpoint findLastNonEphemeralAncestor_walk (fuel : nat) (g : ProvenanceGraph)
  (id : string) (skipCount : nat) : outcome string :=
  match fuel with
  | 0 => Throw Diverged
  | S fuel' =>
    match nodes g !! id with
    | None => Throw NodeNotFoundError
    | Some n =>
      match parentId n with
      | None => Ok id
      | Some p =>
        match kind n with
        | Ephemeral => findLastNonEphemeralAncestor_walk fuel' g p skipCount
        | Durable =>
          match skipCount with
          | 0 => Ok id
          | S k => findLastNonEphemeralAncestor_walk fuel' g p k
          end
        end
      end
    end
  end.

(** Modelled from the spec: the same walk, allowed as many steps as the
    graph has nodes (enough on every valid graph, see
    [getLastN_lineage]). *)
Definition findLastNonEphemeralAncestor (g : ProvenanceGraph) (startNodeId : string)
  (skipCount : nat) : outcome string :=
  findLastNonEphemeralAncestor_walk (size (nodes g)) g startNodeId skipCount.

(** Modelled from the spec: [trrack.getLastNNonEphemeralNode(n)], the
    walk above started at the current node (section 4.4, where undo calls
    it with the current node and [undoStack.length + 1]). *)
Definition getLastNNonEphemeralNode (g : ProvenanceGraph) (n : nat) : outcome string :=
  findLastNonEphemeralAncestor g (currentNodeId g) n.

(** Modelled from the spec: the structural validation of an imported graph
    (section 7, [MalformedImportError]): the current node exists and every
    node's parent links lead to a root, which excludes dangling parent
    references, a missing root and cycles. *)
Definition validGraph (g : ProvenanceGraph) : bool :=
  bool_decide (is_Some (current g))
  && forallb (fun kn => isOk (invocationChain (size (nodes g)) g (fst kn)))
             (map_to_list (nodes g)).

(** Modelled from the spec: [importGraph(serialized)] (section 4.5); the
    component calls it as [trrack.importObject].  [structuredClone] is the
    identity on the immutable values of this development. *)
Definition importObject (serialized : ProvenanceGraph) : outcome ProvenanceGraph :=
  if validGraph serialized then Ok serialized else Throw MalformedImportError.

(** ** The component *)

(** *** Registered mutators (Canvas.tsx, lines 75-98) *)

Definition drawMutator : Mutator := fun state _lines =>
  mkKonvaState _lines (state_tool state) (state_color state) (state_penSize state).

Definition drawEndMutator : Mutator := fun state _lines =>
  mkKonvaState _lines (state_tool state) (state_color state) (state_penSize state).

Definition clearMutator : Mutator := fun state _lines =>
  mkKonvaState [] (state_tool state) (state_color state) (state_penSize state).

Definition undoMutator : Mutator := fun state _lines =>
  mkKonvaState _lines (state_tool state) (state_color state) (state_penSize state).

Definition redoMutator : Mutator := fun state _lines =>
  mkKonvaState _lines (state_tool state) (state_color state) (state_penSize state).

(** The [actions] object returned by the [useMemo] block. *)
Record Actions := mkActions {
  draw : Lines -> Invocation;
  drawEnd : Lines -> Invocation;
  undo : Lines -> Invocation;
  clear : Lines -> Invocation;
  redo : Lines -> Invocation
}.

(** [Registry.create()] followed by the five [reg.register] calls. *)
Definition registrations : outcome (gmap string Mutator * Actions) :=
  '(reg, draw) ← register "draw" drawMutator ∅;
  '(reg, drawEnd) ← register "drawEnd" drawEndMutator reg;
  '(reg, clear) ← register "clear" clearMutator reg;
  '(reg, undo) ← register "undo" undoMutator reg;
  '(reg, redo) ← register "redo" redoMutator reg;
  Ok (reg, mkActions draw drawEnd undo clear redo).

(** The registry and the handles those calls produce
    (see [registrations_ok]). *)
Definition reg : gmap string Mutator :=
  <["redo" := redoMutator]> (<["undo" := undoMutator]> (<["clear" := clearMutator]>
    (<["drawEnd" := drawEndMutator]> (<["draw" := drawMutator]> ∅)))).

Definition actions : Actions :=
  mkActions (mkInvocation "draw") (mkInvocation "drawEnd") (mkInvocation "undo")
            (mkInvocation "clear") (mkInvocation "redo").

Definition initialState : KonvaState := mkKonvaState [] Pen red5 "5".

(** *** Component state

    The [useState] cells, the [isDrawing] ref, the graph owned by the
    [trrack] instance (its registry is [reg] throughout), the arguments
    the throttled [debouncedApply] holds for its trailing call, and the
    last value handed to [setAnswer]. *)
Record Answer := mkAnswer {
  status : bool;
  provenanceGraph : ProvenanceGraph;
  answers : list (string * string)
}.

Record Canvas := mkCanvas {
  tool : string;
  penSize : string;
  lines : Lines;
  color : string;
  mousePos : Z * Z;
  isDrawing : bool;
  undoStack : list string;
  trrack : ProvenanceGraph;
  pendingDraw : option Lines;
  answer : option Answer
}.

Definition setLines (l : Lines) (s : Canvas) : Canvas :=
  mkCanvas (tool s) (penSize s) l (color s) (mousePos s) (isDrawing s)
           (undoStack s) (trrack s) (pendingDraw s) (answer s).

Definition setMousePos (p : Z * Z) (s : Canvas) : Canvas :=
  mkCanvas (tool s) (penSize s) (lines s) (color s) p (isDrawing s)
           (undoStack s) (trrack s) (pendingDraw s) (answer s).

Definition setIsDrawing (b : bool) (s : Canvas) : Canvas :=
  mkCanvas (tool s) (penSize s) (lines s) (color s) (mousePos s) b
           (undoStack s) (trrack s) (pendingDraw s) (answer s).

Definition setUndoStack (u : list string) (s : Canvas) : Canvas :=
  mkCanvas (tool s) (penSize s) (lines s) (color s) (mousePos s) (isDrawing s)
           u (trrack s) (pendingDraw s) (answer s).

Definition setTrrack (g : ProvenanceGraph) (s : Canvas) : Canvas :=
  mkCanvas (tool s) (penSize s) (lines s) (color s) (mousePos s) (isDrawing s)
           (undoStack s) g (pendingDraw s) (answer s).

Definition setPendingDraw (p : option Lines) (s : Canvas) : Canvas :=
  mkCanvas (tool s) (penSize s) (lines s) (color s) (mousePos s) (isDrawing s)
           (undoStack s) (trrack s) p (answer s).

Definition setAnswer (a : Answer) (s : Canvas) : Canvas :=
  mkCanvas (tool s) (penSize s) (lines s) (color s) (mousePos s) (isDrawing s)
           (undoStack s) (trrack s) (pendingDraw s) (Some a).

(** JavaScript's [x || d] on strings: the empty string is falsy. *)
Definition orDefault (x d : string) : string :=
  if decide (x = "") then d else x.

(** *** Session start (Canvas.tsx, lines 100-123)

    [storedAnswers] lists the host's [answers] object in [Object.keys]
    order; a stored answer is reduced to its [provenanceGraph.stimulus]
    entry. *)
Record StoredAnswer := mkStoredAnswer {
  stimulus : option ProvenanceGraph
}.

Definition lookupAnswer (key : string) (storedAnswers : list (string * StoredAnswer))
  : option StoredAnswer :=
  snd <$> List.find (fun kv => String.eqb (fst kv) key) storedAnswers.

Definition freshCanvas (g : ProvenanceGraph) : Canvas :=
  mkCanvas "pen" "5" [] red5 (0, 0)%Z false [] g None None.

Definition initCanvas (rid : string) (responseId : string)
  (storedAnswers : list (string * StoredAnswer)) : outcome Canvas :=
  let trrackInst := createRoot rid initialState in
  if decide (responseId = "") then Ok (freshCanvas trrackInst)
  else
    let answer := default "" (List.find (String.prefix responseId) (map fst storedAnswers)) in
    match lookupAnswer answer storedAnswers with
    | None => Throw TypeError
    | Some stored =>
      trrackInst ← match stimulus stored with
                   | Some serialized => importObject serialized
                   | None => Ok trrackInst
                   end;
      state ← getState reg trrackInst (currentNodeId trrackInst);
      Ok (mkCanvas (orDefault (toolName (state_tool state)) "pen")
                   (orDefault (state_penSize state) "5")
                   (state_lines state)
                   (orDefault (state_color state) red5)
                   (0, 0)%Z false [] trrackInst None None)
    end.

(** The [useEffect] on [provenanceState] (lines 62-69). *)
Definition provenanceStateEffect (provenanceState : option KonvaState) (s : Canvas)
  : Canvas :=
  match provenanceState with
  | None => s
  | Some ps =>
    mkCanvas (orDefault (toolName (state_tool ps)) "pen")
             (orDefault (state_penSize ps) "5")
             (state_lines ps)
             (orDefault (state_color ps) red5)
             (mousePos s) (isDrawing s) (undoStack s) (trrack s)
             (pendingDraw s) (answer s)
  end.

(** *** Pointer down (lines 141-149)

    [pos] is [None] when the event has no target or stage.  [toNumber]
    stands for the unary plus applied to the pen size string. *)
Definition handleMouseDown (toNumber : string -> Z) (pos : option (Z * Z)) (s : Canvas)
  : Canvas :=
  match pos with
  | None => s
  | Some pos =>
    let width := if String.eqb (tool s) "pen" then toNumber (penSize s)
                 else (toNumber (penSize s) * 8)%Z in
    setLines (lines s ++ [mkLine (tool s) [fst pos; snd pos] width (color s)])
             (setIsDrawing true s)
  end.

(** *** Pointer move (lines 137-139 and 151-176)

    [debouncedApply] is [throttle(f, 50)].  When the throttle lets a call
    through, [f] runs at once ([fire = Some nid], [nid] the id given to the
    new node); otherwise the arguments wait for the trailing call, which
    [throttleTrailing] performs.  Which of the two happens is decided by
    the clock and is an input here. *)
Definition debouncedApply_body (nid : string) (l : Lines) (g : ProvenanceGraph)
  : ProvenanceGraph :=
  apply "drawing" (draw actions l) Ephemeral nid g.

Definition debouncedApply (fire : option string) (l : Lines) (s : Canvas) : Canvas :=
  match fire with
  | Some nid => setPendingDraw None (setTrrack (debouncedApply_body nid l (trrack s)) s)
  | None => setPendingDraw (Some l) s
  end.

Definition throttleTrailing (nid : string) (s : Canvas) : Canvas :=
  match pendingDraw s with
  | Some l => setPendingDraw None (setTrrack (debouncedApply_body nid l (trrack s)) s)
  | None => s
  end.

Definition addPoint (point : Z * Z) (lastLine : Line) : Line :=
  mkLine (line_tool lastLine) (line_points lastLine ++ [fst point; snd point])
         (line_width lastLine) (line_color lastLine).

Definition handleMouseMove (pos : Z * Z) (fire : option string) (s : Canvas)
  : outcome Canvas :=
  let s := if String.eqb (tool s) "eraser" then setMousePos pos s else s in
  if negb (isDrawing s) then Ok s
  else
    match last (lines s) with
    | None => Throw TypeError
    | Some lastLine =>
      let lines' := removelast (lines s) ++ [addPoint pos lastLine] in
      Ok (debouncedApply fire lines' (setUndoStack [] (setLines lines' s)))
    end.

(** A run of pointer moves that all reach [apply]: each move comes with
    the id given to its node. *)
Fixpoint pointerMoves (moves : list ((Z * Z) * string)) (s : Canvas) : outcome Canvas :=
  match moves with
  | [] => Ok s
  | (pos, nid) :: rest =>
    s' ← handleMouseMove pos (Some nid) s;
    pointerMoves rest s'
  end.

(** *** Pointer up (lines 178-187) *)
Definition handleMouseUp (nid : string) (s : Canvas) : Canvas :=
  let g := apply "draw end" (drawEnd actions (lines s)) Durable nid (trrack s) in
  setAnswer (mkAnswer true g []) (setTrrack g (setIsDrawing false s)).

(** *** Clear all (lines 223-229) *)
Definition clearClick (nid : string) (s : Canvas) : Canvas :=
  setLines [] (setTrrack (apply "clear" (clear actions []) Durable nid (trrack s)) s).

(** *** Undo (lines 230-247) *)
Definition undoDisabled (s : Canvas) : outcome bool :=
  t ← getLastNNonEphemeralNode (trrack s) (length (undoStack s));
  isRootNode (nodes (trrack s) !! t).

Definition undoClick (nid : string) (s : Canvas) : outcome Canvas :=
  ephemeralNode ← getLastNNonEphemeralNode (trrack s) (length (undoStack s) + 1);
  let currentNode := currentNodeId (trrack s) in
  isState ← isStateNode (current (trrack s));
  if isState : bool then
    prevState ← getState reg (trrack s) ephemeralNode;
    let g := apply "undo" (undo actions (state_lines prevState)) Ephemeral nid (trrack s) in
    Ok (setUndoStack (undoStack s ++ [currentNode])
          (setLines (state_lines prevState) (setTrrack g s)))
  else Ok s.

(** *** Redo (lines 248-262) *)
Definition redoDisabled (s : Canvas) : bool :=
  Nat.eqb (length (undoStack s)) 0.

Definition redoClick (nid : string) (s : Canvas) : outcome Canvas :=
  let top := default "undefined" (last (undoStack s)) in
  newState ← getState reg (trrack s) top;
  let g := apply "redo" (undo actions (state_lines newState)) Ephemeral nid (trrack s) in
  Ok (setUndoStack (removelast (undoStack s))
        (setLines (state_lines newState) (setTrrack g s))).

(** ** Parent chains

    [lineage g id l]: [l] lists the nodes met when following parent links
    from [id] up to a root of [g], [id] first. *)
Inductive lineage (g : ProvenanceGraph) : string -> list (string * HistoryNode) -> Prop :=
| lineage_root id n :
    nodes g !! id = Some n -> parentId n = None ->
    lineage g id [(id, n)]
| lineage_step id n p l :
    nodes g !! id = Some n -> parentId n = Some p -> lineage g p l ->
    lineage g id ((id, n) :: l).

(** The invocations of a chain, in root-to-node order. *)
Fixpoint chainInvocations (l : list (string * HistoryNode)) : list Invocation :=
  match l with
  | [] => []
  | (_, n) :: rest => chainInvocations rest ++ invocationOf n
  end.

(** The durable-counting walk, on a chain. *)
Fixpoint ancestorAfter (l : list (string * HistoryNode)) (skipCount : nat) : string :=
  match l with
  | [] => ""
  | (id, n) :: rest =>
    match parentId n with
    | None => id
    | Some _ =>
      match kind n with
      | Ephemeral => ancestorAfter rest skipCount
      | Durable =>
        match skipCount with
        | 0 => id
        | S k => ancestorAfter rest k
        end
      end
    end
  end.

(** A node counts as an undo step when it is a durable state node. *)
Definition countsAsStep (n : HistoryNode) : bool :=
  match parentId n, kind n with
  | Some _, Durable => true
  | _, _ => false
  end.

Fixpoint durableCount (l : list (string * HistoryNode)) : nat :=
  match l with
  | [] => 0
  | (_, n) :: rest => (if countsAsStep n then 1 else 0) + durableCount rest
  end.

(** Every mutator name recorded in the graph is registered. *)
Definition registeredInvocation (inv : Invocation) : bool :=
  bool_decide (is_Some (reg !! mutatorName inv)).

Definition registeredGraph (g : ProvenanceGraph) : bool :=
  forallb (fun kn => forallb registeredInvocation (invocationOf (snd kn)))
          (map_to_list (nodes g)).

Definition wellFormed (g : ProvenanceGraph) : bool :=
  validGraph g && registeredGraph g.

(** A burst of pointer-move applies: each element is the id given to the
    new node and the stroke list it carries. *)
Definition burstApply (burst : list (string * Lines)) (g : ProvenanceGraph)
  : ProvenanceGraph :=
  fold_left (fun g nl => debouncedApply_body (fst nl) (snd nl) g) burst g.

(** [ids] are pairwise distinct and unused in [g]. *)
Definition freshIds (g : ProvenanceGraph) (ids : list string) : bool :=
  bool_decide (NoDup ids) && forallb (fun id => bool_decide (nodes g !! id = None)) ids.

(** ** A worked session, used to exercise the results below *)

Definition stroke1 : Lines := [mkLine "pen" [1; 1; 2; 2]%Z 5 red5].

(** A fresh session whose root received the id ["root"]. *)
Definition session0 : Canvas := freshCanvas (createRoot "root" initialState).

(** One completed stroke: root, then the durable node ["n1"]. *)
Definition session1 : Canvas := handleMouseUp "n1" (setLines stroke1 session0).

(** A second stroke on top of [session1]: pointer-down, two pointer
    moves that both reach [apply] (nodes ["m1"] and ["m2"]), pointer-up
    (node ["n2"]). *)
Definition orElse {A} (d : A) (m : outcome A) : A :=
  match m with Ok a => a | Throw _ => d end.

Definition session2 : Canvas :=
  orElse session1
    (s ← handleMouseMove (4, 4)%Z (Some "m1")
           (handleMouseDown (fun _ => 5%Z) (Some (3, 3)%Z) session1);
     s ← handleMouseMove (5, 5)%Z (Some "m2") s;
     Ok (handleMouseUp "n2" s)).

Definition stroke2a : Lines := stroke1 ++ [mkLine "pen" [3; 3; 4; 4]%Z 5 red5].
Definition stroke2 : Lines := stroke1 ++ [mkLine "pen" [3; 3; 4; 4; 5; 5]%Z 5 red5].

(** [session1] after one click on undo (node ["u1"]). *)
Definition session1u : Canvas := orElse session1 (undoClick "u1" session1).

(** The host's answers after [session2]: an entry without a stored
    graph and the entry of the drawing, holding the graph [session2]
    handed to [setAnswer]. *)
Definition hostAnswers : list (string * StoredAnswer) :=
  [("intro_0", mkStoredAnswer None);
   ("drawing_1", mkStoredAnswer (Some (trrack session2)))].

(** ** The component as a state machine

    The toolbar setters ([SegmentedControl] and [ColorSwatch] callbacks,
    lines 200-221), and the events the rendered tree reacts to (lines
    223-276): the [Stage] hands pointer and touch events to the three
    pointer handlers, and a button whose [disabled] prop is true does not
    run its [onClick]. *)
Definition setTool (t : string) (s : Canvas) : Canvas :=
  mkCanvas t (penSize s) (lines s) (color s) (mousePos s) (isDrawing s)
           (undoStack s) (trrack s) (pendingDraw s) (answer s).

Definition setPenSize (p : string) (s : Canvas) : Canvas :=
  mkCanvas (tool s) p (lines s) (color s) (mousePos s) (isDrawing s)
           (undoStack s) (trrack s) (pendingDraw s) (answer s).

Definition onColorChange (c : string) (s : Canvas) : Canvas :=
  mkCanvas (tool s) (penSize s) (lines s) c (mousePos s) (isDrawing s)
           (undoStack s) (trrack s) (pendingDraw s) (answer s).

Inductive Event :=
| PointerDown (pos : option (Z * Z))
| PointerMove (pos : Z * Z) (fire : option string)
| ThrottleTimer (nid : string)
| PointerUp (nid : string)
| ClearAll (nid : string)
| UndoClick (nid : string)
| RedoClick (nid : string)
| ToolChange (t : string)
| PenSizeChange (p : string)
| ColorChange (c : string)
| ProvenanceStateChange (provenanceState : option KonvaState).

Definition step (toNumber : string -> Z) (e : Event) (s : Canvas) : outcome Canvas :=
  match e with
  | PointerDown pos => Ok (handleMouseDown toNumber pos s)
  | PointerMove pos fire => handleMouseMove pos fire s
  | ThrottleTimer nid => Ok (throttleTrailing nid s)
  | PointerUp nid => Ok (handleMouseUp nid s)
  | ClearAll nid => Ok (clearClick nid s)
  | UndoClick nid =>
    disabled ← undoDisabled s;
    if disabled : bool then Ok s else undoClick nid s
  | RedoClick nid => if redoDisabled s then Ok s else redoClick nid s
  | ToolChange t => Ok (setTool t s)
  | PenSizeChange p => Ok (setPenSize p s)
  | ColorChange c => Ok (onColorChange c s)
  | ProvenanceStateChange ps => Ok (provenanceStateEffect ps s)
  end.

(** The id an event hands to the library for a node it may create. *)
Definition eventId (e : Event) : option string :=
  match e with
  | PointerMove _ fire => fire
  | ThrottleTimer nid | PointerUp nid | ClearAll nid
  | UndoClick nid | RedoClick nid => Some nid
  | _ => None
  end.

Definition eventFresh (e : Event) (s : Canvas) : bool :=
  match eventId e with
  | Some nid => bool_decide (nodes (trrack s) !! nid = None)
  | None => true
  end.

(** The graph is well formed and every id on the undo stack names one of
    its nodes. *)
Definition invariant (s : Canvas) : bool :=
  wellFormed (trrack s)
  && forallb (fun id => bool_decide (is_Some (nodes (trrack s) !! id))) (undoStack s).

(** A run of events, and the check that each event's id is unused when
    the event arrives. *)
Fixpoint run (toNumber : string -> Z) (es : list Event) (s : Canvas) : outcome Canvas :=
  match es with
  | [] => Ok s
  | e :: rest =>
    s' ← step toNumber e s;
    run toNumber rest s'
  end.

Fixpoint runFresh (toNumber : string -> Z) (es : list Event) (s : Canvas) : bool :=
  match es with
  | [] => true
  | e :: rest =>
    eventFresh e s &&
    match step toNumber e s with
    | Ok s' => runFresh toNumber rest s'
    | Throw _ => true
    end
  end.

(** A first session: a stroke, an undo, a redo. *)
Definition firstEvents : list Event :=
  [PointerDown (Some (3, 3)%Z); PointerMove (4, 4)%Z (Some "m1"); PointerMove (5, 5)%Z None;
   PointerUp "n1"; ThrottleTimer "m2"; UndoClick "u1"; RedoClick "r1"].

(** A run of pointer moves, each with the throttle's decision. *)
Fixpoint strokeMoves (moves : list ((Z * Z) * option string)) (s : Canvas)
  : outcome Canvas :=
  match moves with
  | [] => Ok s
  | (pos, fire) :: rest =>
    s' ← handleMouseMove pos fire s;
    strokeMoves rest s'
  end.

(** The points a stroke holds after such a run. *)
Definition addPoints (lastLine : Line) (moves : list ((Z * Z) * option string)) : Line :=
  fold_left (fun l m => addPoint (fst m) l) moves lastLine.

(** The working lines have reached the library: they wait in the
    throttle for its trailing call, or the current node resolves to
    them. *)
Definition recorded (s : Canvas) : Prop :=
  pendingDraw s = Some (lines s) \/
  (pendingDraw s = None /\
   exists st, getState reg (trrack s) (currentNodeId (trrack s)) = Ok st /\
              state_lines st = lines s).

(** Consecutive clicks on undo, each with the id given to its node. *)
Fixpoint undoClicks (ids : list string) (s : Canvas) : outcome Canvas :=
  match ids with
  | [] => Ok s
  | nid :: rest =>
    s' ← undoClick nid s;
    undoClicks rest s'
  end.

(** [session2] with the eraser selected, pen size ["25"] and another
    color. *)
Definition session2e : Canvas :=
  onColorChange "#228be6" (setPenSize "25" (setTool "eraser" session2)).

(** ** The throttle's clock

    [debouncedApply] is [throttle(f, 50)] of lodash, that is [debounce]
    with [leading], [trailing] and [maxWait = wait].  The arguments it
    keeps ([lastArgs]) are the [pendingDraw] cell of the component state;
    the rest of its state is below, with [timerId] holding the time at
    which the pending timer is due.  Times are [Date.now()] values in
    milliseconds. *)
Definition wait : Z := 50.

Record ThrottleClock := mkClock {
  lastCallTime : option Z;
  lastInvokeTime : Z;
  timerId : option Z
}.

Definition freshClock : ThrottleClock := mkClock None 0 None.

(** [shouldInvoke(time)]: first call, or [wait] has passed since the last
    call, or the clock went backwards, or [maxWait] has passed since the
    last invocation. *)
Definition shouldInvoke (c : ThrottleClock) (time : Z) : bool :=
  match lastCallTime c with
  | None => true
  | Some lc =>
    (wait <=? time - lc)%Z || (time - lc <? 0)%Z || (wait <=? time - lastInvokeTime c)%Z
  end.

(** [remainingWait(time)]; a timer only exists after a call, so the
    first case is never used. *)
Definition remainingWait (c : ThrottleClock) (time : Z) : Z :=
  match lastCallTime c with
  | None => wait
  | Some lc => Z.min (wait - (time - lc)) (wait - (time - lastInvokeTime c))
  end.

(** One entry per run of the throttled function: when it ran, whether
    a pointer-move call ran it directly or the trailing timer did, the id
    given to the node, and the component state right after. *)
Record Applied := mkApplied {
  at_time : Z;
  direct : bool;
  node : string;
  after : Canvas
}.

(** The component, the throttle's clock, and the runs of the throttled
    function so far, latest first. *)
Record Timed := mkTimed {
  canvas : Canvas;
  clock : ThrottleClock;
  applies : list Applied
}.

(** A pointer move at [time].  Outside a stroke the handler returns
    before it calls [debouncedApply].  Inside one, the call either runs
    the function at once (leading edge, or the [maxWait] branch when a
    timer is pending) and starts a timer, or keeps the arguments and
    makes sure a timer is pending. *)
Definition moveAt (time : Z) (pos : Z * Z) (nid : string) (t : Timed) : outcome Timed :=
  let s := canvas t in
  let c := clock t in
  if negb (isDrawing s) then
    s' ← handleMouseMove pos None s;
    Ok (mkTimed s' c (applies t))
  else if shouldInvoke c time then
    s' ← handleMouseMove pos (Some nid) s;
    Ok (mkTimed s' (mkClock (Some time) time (Some (time + wait)%Z))
                (mkApplied time true nid s' :: applies t))
  else
    s' ← handleMouseMove pos None s;
    Ok (mkTimed s' (mkClock (Some time) (lastInvokeTime c)
                            (Some (default (time + wait)%Z (timerId c))))
                (applies t)).

(** [timerExpired] at [time]: the trailing edge when [shouldInvoke]
    holds (the function runs if arguments are kept), a restarted timer
    otherwise.  Nothing happens when no timer is pending. *)
Definition timerAt (time : Z) (nid : string) (t : Timed) : Timed :=
  let s := canvas t in
  let c := clock t in
  match timerId c with
  | None => t
  | Some _ =>
    if shouldInvoke c time then
      match pendingDraw s with
      | Some _ =>
        let s' := throttleTrailing nid s in
        mkTimed s' (mkClock (lastCallTime c) time None)
                (mkApplied time false nid s' :: applies t)
      | None => mkTimed s (mkClock (lastCallTime c) (lastInvokeTime c) None) (applies t)
      end
    else
      mkTimed s (mkClock (lastCallTime c) (lastInvokeTime c)
                         (Some (time + remainingWait c time)%Z))
              (applies t)
  end.

Inductive TimedEvent :=
| MoveAt (time : Z) (pos : Z * Z) (nid : string)
| TimerAt (time : Z) (nid : string).

Definition eventTime (e : TimedEvent) : Z :=
  match e with MoveAt time _ _ | TimerAt time _ => time end.

Definition timedStep (e : TimedEvent) (t : Timed) : outcome Timed :=
  match e with
  | MoveAt time pos nid => moveAt time pos nid t
  | TimerAt time nid => Ok (timerAt time nid t)
  end.

Fixpoint timedRun (es : list TimedEvent) (t : Timed) : outcome Timed :=
  match es with
  | [] => Ok t
  | e :: rest =>
    t' ← timedStep e t;
    timedRun rest t'
  end.

(** The events come in the order of their times, none before [now]. *)
Fixpoint inOrder (now : Z) (es : list TimedEvent) : bool :=
  match es with
  | [] => true
  | e :: rest => (now <=? eventTime e)%Z && inOrder (eventTime e) rest
  end.

(** Latest first: each run comes no earlier than the one before it, and
    at least [wait] after it when that one was run directly by a call. *)
Fixpoint spaced (log : list Applied) : Prop :=
  match log with
  | [] => True
  | b :: rest =>
    match rest with
    | [] => True
    | a :: _ =>
      (at_time a <= at_time b)%Z /\
      (direct a = true -> (at_time a + wait <= at_time b)%Z) /\
      spaced rest
    end
  end.

(** What holds of a timed run that started at [s0] with a fresh clock,
    when the last event came at [now]. *)
Definition timedInv (s0 : Canvas) (now : Z) (t : Timed) : Prop :=
  (timerId (clock t) <> None -> lastCallTime (clock t) <> None) /\
  (applies t <> [] -> lastCallTime (clock t) <> None) /\
  (lastCallTime (clock t) <> None ->
   pendingDraw (canvas t) = None \/ pendingDraw (canvas t) = Some (lines (canvas t))) /\
  (forall lc, lastCallTime (clock t) = Some lc -> (lc <= now)%Z) /\
  match applies t with
  | [] => True
  | b :: _ =>
    at_time b = lastInvokeTime (clock t) /\ (at_time b <= now)%Z /\
    (direct b = true ->
     exists lc, lastCallTime (clock t) = Some lc /\ (at_time b <= lc)%Z)
  end /\
  spaced (applies t) /\
  Forall (fun a => exists parent,
            nodes (trrack (after a)) !! node a =
              Some (mkNode (Some parent) Ephemeral "drawing"
                           (Some (mkInvocation "draw" (lines (after a))))))
         (applies t) /\
  (forall id, is_Some (nodes (trrack (canvas t)) !! id) ->
     is_Some (nodes (trrack s0) !! id) \/ exists a, a ∈ applies t /\ node a = id).

(** [session1] after a pointer-down at (3, 3), and a stroke whose second
    move comes 10 ms after the first, with the timer firing when it is
    due and a third move 10 ms after that. *)
Definition drawing1 : Canvas := handleMouseDown (fun _ => 5%Z) (Some (3, 3)%Z) session1.

Definition timedStroke : list TimedEvent :=
  [MoveAt 0 (4, 4)%Z "m1"; MoveAt 10 (5, 5)%Z "unused"; TimerAt 50 "m2";
   MoveAt 60 (6, 6)%Z "m3"].

Definition timedStrokeEnd : Timed :=
  orElse (mkTimed drawing1 freshClock [])
         (timedRun timedStroke (mkTimed drawing1 freshClock [])).

(** ** Results on the provenance library *)

Lemma registrations_ok : registrations = Ok (reg, actions).
Proof. reflexivity. Qed.

Lemma lineage_nonempty g id l : lineage g id l -> l <> [].
Proof. destruct 1; discriminate. Qed.

Lemma lineage_head g id l :
  lineage g id l -> exists n rest, l = (id, n) :: rest /\ nodes g !! id = Some n.
Proof. destruct 1; eauto. Qed.

Lemma lineage_functional g id l1 l2 :
  lineage g id l1 -> lineage g id l2 -> l1 = l2.
Proof.
  intros H1. revert l2.
  induction H1 as [id n Hn Hp | id n p l Hn Hp Hl IH]; intros l2 H2;
    inversion H2; subst; try congruence.
  assert (n0 = n) by congruence. subst n0.
  assert (p0 = p) by congruence. subst p0.
  f_equal. now apply IH.
Qed.

Lemma lineage_lookup g id l i n :
  lineage g id l -> (i, n) ∈ l -> nodes g !! i = Some n.
Proof.
  induction 1 as [id m Hm Hp | id m p l Hm Hp Hl IH]; intros Hin.
  - apply list_elem_of_singleton in Hin. congruence.
  - apply elem_of_cons in Hin as [Heq | Hin]; [congruence | auto].
Qed.

Lemma lineage_suffix g id l i m :
  lineage g id l -> (i, m) ∈ l ->
  exists l', lineage g i l' /\ length l' <= length l.
Proof.
  induction 1 as [id n Hn Hp | id n p l Hn Hp Hl IH]; intros Hin.
  - apply list_elem_of_singleton in Hin. injection Hin as -> ->.
    exists [(id, n)]. split; [now apply lineage_root | lia].
  - apply elem_of_cons in Hin as [Heq | Hin].
    + injection Heq as -> ->. exists ((id, n) :: l).
      split; [eapply lineage_step; eauto | lia].
    + destruct (IH Hin) as (l' & Hl' & Hlen). exists l'. split; [exact Hl' | simpl; lia].
Qed.

(** No node occurs twice on a parent chain, so a chain is never longer
    than the graph has nodes: the walks below are given enough steps. *)
Lemma lineage_NoDup g id l : lineage g id l -> NoDup (l.*1).
Proof.
  induction 1 as [id n Hn Hp | id n p l Hn Hp Hl IH].
  - apply NoDup_singleton.
  - cbn. apply NoDup_cons. split; [| exact IH].
    intros Hin. apply list_elem_of_fmap in Hin as ([i m] & Hi & Hin).
    simpl in Hi. subst i.
    destruct (lineage_suffix _ _ _ _ _ Hl Hin) as (l' & Hl' & Hlen).
    pose proof (lineage_functional _ _ _ _ Hl' (lineage_step g id n p l Hn Hp Hl)) as ->.
    simpl in Hlen. lia.
Qed.

Lemma lineage_bound g id l : lineage g id l -> length l <= size (nodes g).
Proof.
  intros Hl. rewrite <- length_map_to_list.
  rewrite <- (length_fmap fst l), <- (length_fmap fst (map_to_list (nodes g))).
  apply submseteq_length, NoDup_submseteq; [eapply lineage_NoDup; eauto |].
  intros x Hx. apply list_elem_of_fmap in Hx as ([i m] & -> & Hin).
  apply (list_elem_of_fmap_2 fst _ (i, m)), elem_of_map_to_list.
  eapply lineage_lookup; eauto.
Qed.

Lemma invocationChain_lineage g id l fuel :
  lineage g id l -> length l <= fuel ->
  invocationChain fuel g id = Ok (chainInvocations l).
Proof.
  intros Hl. revert fuel.
  induction Hl as [id n Hn Hp | id n p l Hn Hp Hl IH]; intros fuel Hf;
    (destruct fuel as [|fuel]; [simpl in Hf; lia |]); simpl; rewrite Hn, Hp.
  - reflexivity.
  - rewrite IH by (simpl in Hf; lia). reflexivity.
Qed.

Lemma walk_lineage g id l fuel k :
  lineage g id l -> length l <= fuel ->
  findLastNonEphemeralAncestor_walk fuel g id k = Ok (ancestorAfter l k).
Proof.
  intros Hl. revert fuel k.
  induction Hl as [id n Hn Hp | id n p l Hn Hp Hl IH]; intros fuel k Hf;
    (destruct fuel as [|fuel]; [simpl in Hf; lia |]); simpl; rewrite Hn, Hp.
  - reflexivity.
  - destruct (kind n); [| destruct k]; try reflexivity;
      apply IH; simpl in Hf; lia.
Qed.

Lemma invocationChain_sound fuel g id c :
  invocationChain fuel g id = Ok c ->
  exists l, lineage g id l /\ length l <= fuel.
Proof.
  revert id c. induction fuel as [|fuel IH]; intros id c; simpl; [discriminate |].
  destruct (nodes g !! id) as [n|] eqn:Hn; [| discriminate].
  destruct (parentId n) as [p|] eqn:Hp.
  - destruct (invocationChain fuel g p) as [c'|] eqn:Hc; [| discriminate].
    intros _. destruct (IH _ _ Hc) as (l & Hl & Hlen).
    exists ((id, n) :: l). split; [eapply lineage_step; eauto | simpl; lia].
  - intros _. exists [(id, n)]. split; [now apply lineage_root | simpl; lia].
Qed.

Lemma forallb_map_to_list (m : gmap string HistoryNode) (f : string * HistoryNode -> bool) :
  forallb f (map_to_list m) = true <->
  (forall id n, m !! id = Some n -> f (id, n) = true).
Proof.
  rewrite forallb_forall. split.
  - intros H id n Hn. apply H, list_elem_of_In, elem_of_map_to_list. exact Hn.
  - intros H [id n] Hin. apply H, elem_of_map_to_list, list_elem_of_In. exact Hin.
Qed.

Lemma validGraph_spec g :
  validGraph g = true <->
  is_Some (current g) /\
  (forall id n, nodes g !! id = Some n ->
     exists l, lineage g id l /\ length l <= size (nodes g)).
Proof.
  unfold validGraph. rewrite andb_true_iff, bool_decide_eq_true, forallb_map_to_list.
  split; intros [Hc Hall]; split; try exact Hc; intros id n Hn.
  - specialize (Hall id n Hn). simpl in Hall.
    destruct (invocationChain (size (nodes g)) g id) as [c|] eqn:Hch; [| discriminate].
    eapply invocationChain_sound; eauto.
  - destruct (Hall id n Hn) as (l & Hl & Hlen). simpl.
    now rewrite (invocationChain_lineage _ _ _ _ Hl Hlen).
Qed.

(** A graph is valid exactly when its current node exists and every
    node's parent links lead to a root. *)
Lemma validGraph_structural g :
  validGraph g = true <->
  is_Some (current g) /\
  (forall id n, nodes g !! id = Some n -> exists l, lineage g id l).
Proof.
  rewrite validGraph_spec. split; intros [Hc Hall]; (split; [exact Hc |]);
    intros id n Hn; destruct (Hall id n Hn) as (l & Hl); exists l.
  - tauto.
  - split; [exact Hl | eapply lineage_bound; eauto].
Qed.

Lemma registeredGraph_spec g :
  registeredGraph g = true <->
  (forall id n, nodes g !! id = Some n ->
     forallb registeredInvocation (invocationOf n) = true).
Proof. unfold registeredGraph. apply forallb_map_to_list. Qed.

Lemma wellFormed_valid g : wellFormed g = true -> validGraph g = true.
Proof. unfold wellFormed. now intros [? ?]%andb_true_iff. Qed.

Lemma wellFormed_registered g : wellFormed g = true -> registeredGraph g = true.
Proof. unfold wellFormed. now intros [? ?]%andb_true_iff. Qed.

Lemma valid_lineage g id n :
  validGraph g = true -> nodes g !! id = Some n ->
  exists l, lineage g id l /\ length l <= size (nodes g).
Proof. intros [_ H]%validGraph_spec. apply H. Qed.

Lemma valid_current g :
  validGraph g = true -> exists n, nodes g !! currentNodeId g = Some n.
Proof. intros [[n Hn] _]%validGraph_spec. now exists n. Qed.

(** *** [apply] only adds the new node *)

Section Apply.
Variables (lbl : string) (inv : Invocation) (k : NodeKind) (nid : string).
Variable g : ProvenanceGraph.
Hypothesis fresh : nodes g !! nid = None.

Let node' := mkNode (Some (currentNodeId g)) k lbl (Some inv).
Let g' := apply lbl inv k nid g.

Lemma apply_lookup_new : nodes g' !! nid = Some node'.
Proof. apply lookup_insert_eq. Qed.

Lemma apply_lookup_old id n : nodes g !! id = Some n -> nodes g' !! id = Some n.
Proof.
  intros Hn. subst g'. unfold apply. simpl.
  rewrite lookup_insert_ne; [exact Hn | congruence].
Qed.

Lemma apply_lookup_inv id n :
  nodes g' !! id = Some n -> (id = nid /\ n = node') \/ nodes g !! id = Some n.
Proof.
  subst g'. unfold apply. simpl. intros [[-> <-] | [_ H]]%lookup_insert_Some; auto.
Qed.

Lemma apply_size : size (nodes g') = S (size (nodes g)).
Proof. apply map_size_insert_None, fresh. Qed.

Lemma apply_lineage_old id l : lineage g id l -> lineage g' id l.
Proof.
  induction 1 as [id n Hn Hp | id n p l Hn Hp Hl IH].
  - apply lineage_root; [now apply apply_lookup_old | exact Hp].
  - eapply lineage_step; [now apply apply_lookup_old | exact Hp | exact IH].
Qed.

Lemma apply_lineage_new l :
  lineage g (currentNodeId g) l -> lineage g' nid ((nid, node') :: l).
Proof.
  intros Hl. eapply lineage_step; [apply apply_lookup_new | reflexivity |].
  now apply apply_lineage_old.
Qed.

Lemma apply_valid : validGraph g = true -> validGraph g' = true.
Proof.
  intros Hv. apply validGraph_spec. split.
  - exists node'. apply apply_lookup_new.
  - intros id n [[-> ->] | Hn]%apply_lookup_inv; rewrite apply_size.
    + destruct (valid_current g Hv) as [c Hc].
      destruct (valid_lineage g _ _ Hv Hc) as (l & Hl & Hlen).
      exists ((nid, node') :: l). split; [now apply apply_lineage_new | simpl; lia].
    + destruct (valid_lineage g _ _ Hv Hn) as (l & Hl & Hlen).
      exists l. split; [now apply apply_lineage_old | lia].
Qed.

Lemma apply_registered :
  registeredInvocation inv = true ->
  registeredGraph g = true -> registeredGraph g' = true.
Proof.
  intros Hi Hr. apply registeredGraph_spec.
  intros id n [[-> ->] | Hn]%apply_lookup_inv.
  - simpl. now rewrite Hi.
  - revert Hn. now apply registeredGraph_spec.
Qed.

Lemma apply_wellFormed :
  registeredInvocation inv = true ->
  wellFormed g = true -> wellFormed g' = true.
Proof.
  intros Hi Hw. unfold wellFormed. apply andb_true_iff. split.
  - apply apply_valid. now apply wellFormed_valid.
  - apply apply_registered; [exact Hi | now apply wellFormed_registered].
Qed.
End Apply.

(** *** Replay *)

Lemma replay_app r st a b :
  replay r st (a ++ b) = (st' ← replay r st a; replay r st' b).
Proof.
  revert st. induction a as [|inv a IH]; intros st; simpl; [reflexivity |].
  destruct (r !! mutatorName inv); [apply IH | reflexivity].
Qed.

Lemma reg_lookup_cases name m :
  reg !! name = Some m ->
  (name = "draw" /\ m = drawMutator) \/ (name = "drawEnd" /\ m = drawEndMutator) \/
  (name = "clear" /\ m = clearMutator) \/ (name = "undo" /\ m = undoMutator) \/
  (name = "redo" /\ m = redoMutator).
Proof.
  unfold reg. repeat rewrite lookup_insert_Some. rewrite lookup_empty.
  intuition (subst; auto; discriminate).
Qed.

Lemma mutator_frame name m st p :
  reg !! name = Some m ->
  state_tool (m st p) = state_tool st /\
  state_color (m st p) = state_color st /\
  state_penSize (m st p) = state_penSize st.
Proof.
  intros H. apply reg_lookup_cases in H.
  destruct H as [[_ ->] | [[_ ->] | [[_ ->] | [[_ ->] | [_ ->]]]]]; auto.
Qed.

Lemma replay_frame st chain st' :
  replay reg st chain = Ok st' ->
  state_tool st' = state_tool st /\
  state_color st' = state_color st /\
  state_penSize st' = state_penSize st.
Proof.
  revert st. induction chain as [|inv chain IH]; intros st; cbn [replay].
  - intros [= ->]. auto.
  - destruct (reg !! mutatorName inv) as [m|] eqn:Hm; [| discriminate].
    intros H. apply IH in H as (Ht & Hc & Hp).
    destruct (mutator_frame _ _ st (parameters inv) Hm) as (Ht' & Hc' & Hp').
    repeat split; congruence.
Qed.

Lemma replay_registered st chain :
  forallb registeredInvocation chain = true ->
  exists st', replay reg st chain = Ok st'.
Proof.
  revert st. induction chain as [|inv chain IH]; intros st; cbn [replay forallb].
  - eauto.
  - intros [Hi Hc]%andb_true_iff. unfold registeredInvocation in Hi.
    apply bool_decide_eq_true in Hi as [m Hm]. rewrite Hm. now apply IH.
Qed.

Lemma forallb_app_true {A} (f : A -> bool) a b :
  forallb f a = true -> forallb f b = true -> forallb f (a ++ b) = true.
Proof. intros Ha Hb. rewrite forallb_app, Ha, Hb. reflexivity. Qed.

Lemma lineage_registered g id l :
  registeredGraph g = true -> lineage g id l ->
  forallb registeredInvocation (chainInvocations l) = true.
Proof.
  intros Hr. induction 1 as [id n Hn Hp | id n p l Hn Hp Hl IH]; simpl.
  - eapply registeredGraph_spec; eauto.
  - apply forallb_app_true; [exact IH |]. eapply registeredGraph_spec; eauto.
Qed.

(** *** State resolution *)

Lemma getState_lineage g id l :
  lineage g id l -> length l <= size (nodes g) ->
  getState reg g id = replay reg (rootState g) (chainInvocations l).
Proof.
  intros Hl Hlen. unfold getState.
  now rewrite (invocationChain_lineage _ _ _ _ Hl Hlen).
Qed.

(** On a well-formed graph the state of every node resolves, and only
    the strokes can differ from the root state. *)
Lemma getState_total g id n :
  wellFormed g = true -> nodes g !! id = Some n ->
  exists st, getState reg g id = Ok st /\
    state_tool st = state_tool (rootState g) /\
    state_color st = state_color (rootState g) /\
    state_penSize st = state_penSize (rootState g).
Proof.
  intros Hw Hn.
  destruct (valid_lineage g _ _ (wellFormed_valid _ Hw) Hn) as (l & Hl & Hlen).
  rewrite (getState_lineage _ _ _ Hl Hlen).
  destruct (replay_registered (rootState g) (chainInvocations l)) as [st Hst].
  { eapply lineage_registered; eauto using wellFormed_registered. }
  exists st. split; [exact Hst | now apply replay_frame in Hst].
Qed.

Lemma getState_apply_old lbl inv k nid g id n :
  nodes g !! nid = None -> validGraph g = true -> nodes g !! id = Some n ->
  getState reg (apply lbl inv k nid g) id = getState reg g id.
Proof.
  intros Hf Hv Hn.
  destruct (valid_lineage g _ _ Hv Hn) as (l & Hl & Hlen).
  rewrite (getState_lineage g _ _ Hl Hlen).
  apply (getState_lineage (apply lbl inv k nid g) id l).
  - now apply apply_lineage_old.
  - rewrite apply_size by exact Hf. lia.
Qed.

Lemma getState_apply_new lbl inv k nid g :
  nodes g !! nid = None -> validGraph g = true ->
  getState reg (apply lbl inv k nid g) nid =
  (st ← getState reg g (currentNodeId g); replay reg st [inv]).
Proof.
  intros Hf Hv.
  destruct (valid_current g Hv) as [c Hc].
  destruct (valid_lineage g _ _ Hv Hc) as (l & Hl & Hlen).
  rewrite (getState_lineage g _ _ Hl Hlen).
  rewrite (getState_lineage (apply lbl inv k nid g) nid _ (apply_lineage_new lbl inv k nid g Hf l Hl)).
  - simpl. apply replay_app.
  - rewrite apply_size by exact Hf. simpl. lia.
Qed.

(** *** The durable-counting walk *)

Lemma valid_lineage_bound g id l :
  validGraph g = true -> lineage g id l -> length l <= size (nodes g).
Proof.
  intros Hv Hl. destruct (lineage_head _ _ _ Hl) as (n & rest & _ & Hn).
  destruct (valid_lineage g _ _ Hv Hn) as (l' & Hl' & Hlen).
  now rewrite (lineage_functional _ _ _ _ Hl Hl').
Qed.

Lemma getLastN_lineage g l k :
  validGraph g = true -> lineage g (currentNodeId g) l ->
  getLastNNonEphemeralNode g k = Ok (ancestorAfter l k).
Proof.
  intros Hv Hl. apply walk_lineage; [exact Hl | eapply valid_lineage_bound; eauto].
Qed.

(** The walk ends on a node of the chain: on the root exactly when fewer
    than [k + 1] durable state nodes lie on the chain, and otherwise on a
    durable state node. *)
Lemma ancestorAfter_spec g id l k :
  lineage g id l ->
  exists n, (ancestorAfter l k, n) ∈ l /\
    ((parentId n = None /\ durableCount l <= k) \/
     (is_Some (parentId n) /\ kind n = Durable /\ k < durableCount l)).
Proof.
  intros Hl. revert k.
  induction Hl as [id n Hn Hp | id n p l Hn Hp Hl IH]; intros k;
    cbn [ancestorAfter durableCount]; unfold countsAsStep; rewrite Hp.
  - exists n. split; [apply list_elem_of_here | left; split; [exact Hp | simpl; lia]].
  - destruct (kind n) eqn:Hk.
    + destruct (IH k) as (m & Hin & Hm). exists m.
      split; [now apply list_elem_of_further | exact Hm].
    + destruct k as [|k].
      * exists n. split; [apply list_elem_of_here |].
        right. rewrite Hp. split; [eauto | split; [exact Hk | lia]].
      * destruct (IH k) as (m & Hin & Hm). exists m.
        split; [now apply list_elem_of_further |].
        destruct Hm as [[? ?] | (? & ? & ?)]; [left | right]; repeat split; auto; lia.
Qed.

Lemma getLastN_total g k :
  validGraph g = true ->
  exists l t n, lineage g (currentNodeId g) l /\
    getLastNNonEphemeralNode g k = Ok t /\ nodes g !! t = Some n /\
    ((parentId n = None /\ durableCount l <= k) \/
     (is_Some (parentId n) /\ kind n = Durable /\ k < durableCount l)).
Proof.
  intros Hv. destruct (valid_current g Hv) as [c Hc].
  destruct (valid_lineage g _ _ Hv Hc) as (l & Hl & _).
  destruct (ancestorAfter_spec g _ l k Hl) as (n & Hin & Hn).
  exists l, (ancestorAfter l k), n. repeat split.
  - exact Hl.
  - now apply getLastN_lineage.
  - eapply lineage_lookup; eauto.
  - exact Hn.
Qed.

(** *** Bursts of ephemeral applies *)

Lemma freshIds_cons g id ids :
  freshIds g (id :: ids) = true ->
  nodes g !! id = None /\ (id ∉ ids) /\ freshIds g ids = true.
Proof.
  unfold freshIds. cbn [forallb].
  intros [Hnd Hids]%andb_true_iff. apply andb_true_iff in Hids as [Hid Hids].
  apply bool_decide_eq_true in Hnd, Hid. apply NoDup_cons in Hnd as [Hni Hnd].
  repeat split; auto. apply andb_true_iff. split; [now apply bool_decide_eq_true | exact Hids].
Qed.

Lemma freshIds_elem g ids id :
  freshIds g ids = true -> id ∈ ids -> nodes g !! id = None.
Proof.
  unfold freshIds. intros [_ H]%andb_true_iff Hin.
  rewrite forallb_forall in H. specialize (H id).
  eapply bool_decide_eq_true_1, H, list_elem_of_In, Hin.
Qed.

Lemma freshIds_apply lbl inv k g id ids :
  freshIds g (id :: ids) = true -> freshIds (apply lbl inv k id g) ids = true.
Proof.
  intros Hf. pose proof (freshIds_cons _ _ _ Hf) as (Hid & Hni & Hids).
  unfold freshIds in *. apply andb_true_iff in Hids as [Hnd Hall].
  apply andb_true_iff. split; [exact Hnd |].
  rewrite forallb_forall in *. intros x Hx.
  apply bool_decide_eq_true. cbn [apply nodes].
  rewrite lookup_insert_ne.
  - eapply bool_decide_eq_true_1, Hall, Hx.
  - intros ->. apply Hni, list_elem_of_In, Hx.
Qed.

Lemma freshIds_app_l g a b : freshIds g (a ++ b) = true -> freshIds g a = true.
Proof.
  unfold freshIds. rewrite forallb_app.
  intros [Hnd Ha]%andb_true_iff. apply andb_true_iff in Ha as [Ha _].
  apply bool_decide_eq_true in Hnd. apply NoDup_app in Hnd as (Hnd & _ & _).
  apply andb_true_iff. split; [now apply bool_decide_eq_true | exact Ha].
Qed.

Lemma burstApply_snoc_fresh burst g x :
  freshIds g (map fst burst ++ [x]) = true ->
  nodes (burstApply burst g) !! x = None.
Proof.
  revert g. induction burst as [|[id ln] burst IH]; intros g Hf.
  - simpl in *. eapply freshIds_elem; [exact Hf | apply list_elem_of_here].
  - cbn [burstApply fold_left]. apply IH. cbn [map fst app] in Hf.
    now apply freshIds_apply.
Qed.

Lemma burstApply_valid burst g :
  freshIds g (map fst burst) = true -> validGraph g = true ->
  validGraph (burstApply burst g) = true.
Proof.
  revert g. induction burst as [|[id ln] burst IH]; intros g Hf Hv; [exact Hv |].
  cbn [burstApply fold_left]. cbn [map fst] in Hf. apply IH.
  - now apply freshIds_apply.
  - apply apply_valid; [now apply freshIds_cons in Hf | exact Hv].
Qed.

Lemma burstApply_wellFormed burst g :
  freshIds g (map fst burst) = true -> wellFormed g = true ->
  wellFormed (burstApply burst g) = true.
Proof.
  revert g. induction burst as [|[id ln] burst IH]; intros g Hf Hw; [exact Hw |].
  cbn [burstApply fold_left]. cbn [map fst] in Hf. apply IH.
  - now apply freshIds_apply.
  - apply apply_wellFormed; [now apply freshIds_cons in Hf | reflexivity | exact Hw].
Qed.

Lemma burstApply_lookup_old burst g id n :
  freshIds g (map fst burst) = true -> nodes g !! id = Some n ->
  nodes (burstApply burst g) !! id = Some n.
Proof.
  revert g. induction burst as [|[i ln] burst IH]; intros g Hf Hn; [exact Hn |].
  cbn [burstApply fold_left]. cbn [map fst] in Hf. apply IH.
  - now apply freshIds_apply.
  - apply apply_lookup_old; [now apply freshIds_cons in Hf | exact Hn].
Qed.

(** After a burst the chain of the current node is the chain it had
    before, below one ephemeral state node per apply of the burst. *)
Lemma burstApply_lineage burst g l :
  freshIds g (map fst burst) = true -> lineage g (currentNodeId g) l ->
  exists pre,
    lineage (burstApply burst g) (currentNodeId (burstApply burst g)) (pre ++ l) /\
    length pre = length burst /\
    Forall (fun kn => countsAsStep (snd kn) = false /\ is_Some (parentId (snd kn))) pre.
Proof.
  revert g l. induction burst as [|[id ln] burst IH]; intros g l Hf Hl.
  - exists []. repeat split; [exact Hl | constructor].
  - cbn [burstApply fold_left]. cbn [map fst] in Hf.
    pose proof (freshIds_cons _ _ _ Hf) as (Hid & _ & _).
    destruct (IH (debouncedApply_body id ln g) _ (freshIds_apply _ _ _ _ _ _ Hf)
                 (apply_lineage_new _ _ _ _ _ Hid _ Hl)) as (pre & Hpre & Hlen & Hall).
    exists (pre ++ [(id, mkNode (Some (currentNodeId g)) Ephemeral "drawing"
                           (Some (draw actions ln)))]).
    rewrite <- app_assoc. repeat split.
    + exact Hpre.
    + rewrite length_app. simpl. lia.
    + apply Forall_app. split; [exact Hall |]. constructor; [| constructor].
      simpl. split; [reflexivity | eauto].
Qed.

Lemma ancestorAfter_skip pre l k :
  Forall (fun kn => countsAsStep (snd kn) = false /\ is_Some (parentId (snd kn))) pre ->
  ancestorAfter (pre ++ l) k = ancestorAfter l k.
Proof.
  induction 1 as [|[id n] pre [Hc [p Hp]] _ IH]; [reflexivity |].
  cbn [app ancestorAfter]. simpl in Hc, Hp. unfold countsAsStep in Hc.
  rewrite Hp in *. destruct (kind n); [exact IH | discriminate].
Qed.

(** *** Well-formedness is kept by every handler *)

Lemma createRoot_wellFormed rid st : wellFormed (createRoot rid st) = true.
Proof.
  unfold wellFormed. apply andb_true_iff. split.
  - apply validGraph_structural. unfold current, createRoot. cbn [nodes currentNodeId].
    split; [rewrite lookup_singleton_eq; eauto |].
    intros id n [<- <-]%lookup_singleton_Some.
    exists [(rid, mkNode None Durable "Root" None)].
    apply lineage_root; [apply lookup_singleton_eq | reflexivity].
  - apply registeredGraph_spec. intros id n.
    unfold createRoot. cbn [nodes]. now intros [_ <-]%lookup_singleton_Some.
Qed.

Lemma importObject_valid serialized g :
  importObject serialized = Ok g -> g = serialized /\ validGraph g = true.
Proof.
  unfold importObject. destruct (validGraph serialized) eqn:Hv; [| discriminate].
  intros [= <-]. auto.
Qed.

Lemma handleMouseUp_wellFormed nid s :
  nodes (trrack s) !! nid = None -> wellFormed (trrack s) = true ->
  wellFormed (trrack (handleMouseUp nid s)) = true.
Proof. intros Hf Hw. now apply apply_wellFormed. Qed.

Lemma clearClick_wellFormed nid s :
  nodes (trrack s) !! nid = None -> wellFormed (trrack s) = true ->
  wellFormed (trrack (clearClick nid s)) = true.
Proof. intros Hf Hw. now apply apply_wellFormed. Qed.

Lemma debouncedApply_wellFormed fire l s :
  (forall nid, fire = Some nid -> nodes (trrack s) !! nid = None) ->
  wellFormed (trrack s) = true ->
  wellFormed (trrack (debouncedApply fire l s)) = true.
Proof.
  intros Hf Hw. destruct fire as [nid|]; [| exact Hw].
  apply apply_wellFormed; [now apply Hf | reflexivity | exact Hw].
Qed.

Lemma handleMouseMove_wellFormed pos fire s s' :
  (forall nid, fire = Some nid -> nodes (trrack s) !! nid = None) ->
  wellFormed (trrack s) = true ->
  handleMouseMove pos fire s = Ok s' ->
  wellFormed (trrack s') = true.
Proof.
  intros Hf Hw. unfold handleMouseMove.
  destruct (String.eqb (tool s) "eraser"); cbn [isDrawing setMousePos lines];
    (destruct (isDrawing s); cbn [negb];
     [destruct (last (lines s)); [| discriminate] |]);
    intros [= <-]; try exact Hw; now apply debouncedApply_wellFormed.
Qed.

Lemma throttleTrailing_wellFormed nid s :
  nodes (trrack s) !! nid = None -> wellFormed (trrack s) = true ->
  wellFormed (trrack (throttleTrailing nid s)) = true.
Proof.
  intros Hf Hw. unfold throttleTrailing. destruct (pendingDraw s); [| exact Hw].
  now apply apply_wellFormed.
Qed.

Lemma undoClick_wellFormed nid s s' :
  nodes (trrack s) !! nid = None -> wellFormed (trrack s) = true ->
  undoClick nid s = Ok s' ->
  wellFormed (trrack s') = true.
Proof.
  intros Hf Hw. unfold undoClick.
  destruct (getLastNNonEphemeralNode _ _) as [t|]; [| discriminate]. cbn.
  destruct (isStateNode _) as [[|]|]; cbn; try discriminate.
  - destruct (getState _ _ _) as [st|]; [| discriminate]. cbn.
    intros [= <-]. now apply apply_wellFormed.
  - now intros [= <-].
Qed.

Lemma redoClick_wellFormed nid s s' :
  nodes (trrack s) !! nid = None -> wellFormed (trrack s) = true ->
  redoClick nid s = Ok s' ->
  wellFormed (trrack s') = true.
Proof.
  intros Hf Hw. unfold redoClick.
  destruct (getState _ _ _) as [st|]; [| discriminate]. cbn.
  intros [= <-]. now apply apply_wellFormed.
Qed.

(** ** Results on the component *)

(** C9. Each registered mutator (draw, drawEnd, clear, undo, redo)
    changes only the [lines] field: for every input state and parameter
    the tool, color and penSize of the returned state are those of the
    input state. *)
Theorem mutators_change_only_lines (name : string) (m : KonvaState -> list Line -> KonvaState)
  (state : KonvaState) (_lines : list Line) :
  reg !! name = Some m ->
  state_tool (m state _lines) = state_tool state /\
  state_color (m state _lines) = state_color state /\
  state_penSize (m state _lines) = state_penSize state.
Proof.
  intros H. apply reg_lookup_cases in H.
  destruct H as [[_ ->] | [[_ ->] | [[_ ->] | [[_ ->] | [_ ->]]]]];
    repeat split; reflexivity.
Qed.

Lemma mutators_change_only_lines_witness :
  reg !! "clear" = Some clearMutator /\
  state_tool (clearMutator (mkKonvaState stroke1 Eraser "#000" "15") stroke1) = Eraser /\
  state_color (clearMutator (mkKonvaState stroke1 Eraser "#000" "15") stroke1) = "#000" /\
  state_penSize (clearMutator (mkKonvaState stroke1 Eraser "#000" "15") stroke1) = "15".
Proof.
  split; [reflexivity |].
  apply (mutators_change_only_lines "clear" clearMutator
           (mkKonvaState stroke1 Eraser "#000" "15") stroke1).
  reflexivity.
Defined.

(** C5. Clearing the drawing is recorded as a new durable node whose
    mutator resets the strokes to the empty list; every node present
    before the clear is still present and unchanged (and resolves to the
    same state), and the working lines become empty. *)
Theorem clear_click_spec (nid : string) (s : Canvas) :
  nodes (trrack s) !! nid = None ->
  let s' := clearClick nid s in
  nodes (trrack s') !! nid =
    Some (mkNode (Some (currentNodeId (trrack s))) Durable "clear"
                 (Some (mkInvocation "clear" []))) /\
  currentNodeId (trrack s') = nid /\
  (exists m, reg !! "clear" = Some m /\ forall st p, state_lines (m st p) = []) /\
  (forall id n, nodes (trrack s) !! id = Some n -> nodes (trrack s') !! id = Some n) /\
  size (nodes (trrack s')) = S (size (nodes (trrack s))) /\
  lines s' = [] /\
  (wellFormed (trrack s) = true ->
     (exists st, getState reg (trrack s') nid = Ok st /\ state_lines st = []) /\
     (forall id n, nodes (trrack s) !! id = Some n ->
        getState reg (trrack s') id = getState reg (trrack s) id)).
Proof.
  intros Hf s'. subst s'. unfold clearClick. cbn [trrack lines setLines setTrrack].
  split; [now apply apply_lookup_new |].
  split; [reflexivity |].
  split; [exists clearMutator; split; reflexivity |].
  split; [intros id n; now apply apply_lookup_old |].
  split; [now apply apply_size |].
  split; [reflexivity |].
  intros Hw. pose proof (wellFormed_valid _ Hw) as Hv. split.
  - rewrite getState_apply_new by assumption.
    destruct (valid_current _ Hv) as [c Hc].
    destruct (getState_total _ _ _ Hw Hc) as (st & -> & _).
    eexists. split; reflexivity.
  - intros id n Hn. eapply getState_apply_old; eauto.
Qed.

Lemma clear_click_spec_witness :
  nodes (trrack session1) !! "n2" = None /\
  lines (clearClick "n2" session1) = [] /\
  nodes (trrack (clearClick "n2" session1)) !! "n2" =
    Some (mkNode (Some "n1") Durable "clear" (Some (mkInvocation "clear" []))).
Proof.
  assert (Hfresh : nodes (trrack session1) !! "n2" = None) by (vm_compute; reflexivity).
  destruct (clear_click_spec "n2" session1 Hfresh) as (Hnode & _ & _ & _ & _ & Hlines & _).
  split; [exact Hfresh | split; [exact Hlines | exact Hnode]].
Defined.

(** C6. On pointer-up the component appends a durable [drawEnd] node
    carrying the complete current stroke list and hands the host an
    answer whose status is [true] and whose provenance graph is the
    graph including that node. *)
Theorem mouse_up_spec (nid : string) (s : Canvas) :
  nodes (trrack s) !! nid = None ->
  let s' := handleMouseUp nid s in
  nodes (trrack s') !! nid =
    Some (mkNode (Some (currentNodeId (trrack s))) Durable "draw end"
                 (Some (mkInvocation "drawEnd" (lines s)))) /\
  currentNodeId (trrack s') = nid /\
  (forall id n, nodes (trrack s) !! id = Some n -> nodes (trrack s') !! id = Some n) /\
  answer s' = Some (mkAnswer true (trrack s') []) /\
  isDrawing s' = false /\
  lines s' = lines s /\
  (wellFormed (trrack s) = true ->
     wellFormed (trrack s') = true /\
     exists st, getState reg (trrack s') nid = Ok st /\ state_lines st = lines s).
Proof.
  intros Hf s'. subst s'. unfold handleMouseUp.
  cbn [trrack lines answer isDrawing setAnswer setTrrack setIsDrawing].
  split; [now apply apply_lookup_new |].
  split; [reflexivity |].
  split; [intros id n; now apply apply_lookup_old |].
  split; [reflexivity |].
  split; [reflexivity |].
  split; [reflexivity |].
  intros Hw. pose proof (wellFormed_valid _ Hw) as Hv. split.
  - apply apply_wellFormed; [exact Hf | reflexivity | exact Hw].
  - rewrite getState_apply_new by assumption.
    destruct (valid_current _ Hv) as [c Hc].
    destruct (getState_total _ _ _ Hw Hc) as (st & -> & _).
    eexists. split; reflexivity.
Qed.

Lemma mouse_up_spec_witness :
  nodes (trrack (setLines stroke1 session0)) !! "n1" = None /\
  nodes (trrack session1) !! "n1" =
    Some (mkNode (Some "root") Durable "draw end" (Some (mkInvocation "drawEnd" stroke1))) /\
  answer session1 = Some (mkAnswer true (trrack session1) []).
Proof.
  assert (Hfresh : nodes (trrack (setLines stroke1 session0)) !! "n1" = None)
    by (vm_compute; reflexivity).
  destruct (mouse_up_spec "n1" (setLines stroke1 session0) Hfresh)
    as (Hnode & _ & _ & Hanswer & _).
  split; [exact Hfresh | split; [exact Hnode | exact Hanswer]].
Defined.

(** C10. If the current node is not a state node (it is the root), a
    click on undo performs no apply: graph, undo stack and working lines
    (the whole component state) are left as they were. *)
Theorem undo_on_root_is_noop (nid : string) (s : Canvas) :
  isStateNode (current (trrack s)) = Ok false ->
  undoClick nid s = Ok s.
Proof.
  unfold isStateNode, current. intros H.
  destruct (nodes (trrack s) !! currentNodeId (trrack s)) as [n|] eqn:Hn; [| discriminate].
  injection H as H. apply bool_decide_eq_false in H.
  assert (Hp : parentId n = None) by (destruct (parentId n); [exfalso; eauto | reflexivity]).
  unfold undoClick, getLastNNonEphemeralNode, findLastNonEphemeralAncestor.
  destruct (size (nodes (trrack s))) as [|f] eqn:Hsz.
  - exfalso. apply (map_size_ne_0_lookup_2 (nodes (trrack s)) (currentNodeId (trrack s)));
      [rewrite Hn; eauto | exact Hsz].
  - cbn [findLastNonEphemeralAncestor_walk]. rewrite Hn, Hp.
    unfold current. rewrite Hn. cbn. rewrite Hp. reflexivity.
Qed.

Lemma undo_on_root_is_noop_witness :
  isStateNode (current (trrack session0)) = Ok false /\
  undoClick "n1" session0 = Ok session0.
Proof.
  split; [vm_compute; reflexivity |].
  apply (undo_on_root_is_noop "n1" session0). vm_compute; reflexivity.
Defined.

(** *** Undo *)

(** What a click on undo does on a well-formed graph whose current node
    is a state node. *)
Lemma undoClick_run (nid : string) (s : Canvas) :
  wellFormed (trrack s) = true ->
  nodes (trrack s) !! nid = None ->
  isStateNode (current (trrack s)) = Ok true ->
  exists target tnode prevState,
    getLastNNonEphemeralNode (trrack s) (length (undoStack s) + 1) = Ok target /\
    nodes (trrack s) !! target = Some tnode /\
    (parentId tnode = None \/ kind tnode = Durable) /\
    getState reg (trrack s) target = Ok prevState /\
    undoClick nid s =
      Ok (setUndoStack (undoStack s ++ [currentNodeId (trrack s)])
            (setLines (state_lines prevState)
               (setTrrack (apply "undo" (mkInvocation "undo" (state_lines prevState))
                                 Ephemeral nid (trrack s)) s))).
Proof.
  intros Hw Hf Hst. pose proof (wellFormed_valid _ Hw) as Hv.
  destruct (getLastN_total (trrack s) (length (undoStack s) + 1) Hv)
    as (l & target & tnode & Hl & Htarget & Htn & Hkind).
  destruct (getState_total _ _ _ Hw Htn) as (prevState & Hprev & _).
  exists target, tnode, prevState.
  split; [exact Htarget |]. split; [exact Htn |].
  split; [destruct Hkind as [[? _] | (_ & ? & _)]; auto |].
  split; [exact Hprev |].
  unfold undoClick. rewrite Htarget. cbn. rewrite Hst. cbn.
  rewrite Hprev. reflexivity.
Qed.

(** Skipping [k + 1] durable steps from a durable node applied on top of
    a burst lands where skipping [k] steps landed before the burst: on a
    node of the graph before the burst, never on a node of the burst. *)
Lemma burst_target g0 burst did dlbl dinv k :
  validGraph g0 = true ->
  freshIds g0 (map fst burst ++ [did]) = true ->
  exists target,
    getLastNNonEphemeralNode g0 k = Ok target /\
    getLastNNonEphemeralNode
      (apply dlbl dinv Durable did (burstApply burst g0)) (k + 1) = Ok target /\
    is_Some (nodes g0 !! target) /\
    (target ∉ map fst burst) /\ target <> did.
Proof.
  intros Hv0 Hfresh.
  pose proof (freshIds_app_l _ _ _ Hfresh) as Hfb.
  destruct (valid_current _ Hv0) as [c Hc].
  destruct (valid_lineage _ _ _ Hv0 Hc) as (l0 & Hl0 & _).
  destruct (burstApply_lineage burst g0 l0 Hfb Hl0) as (pre & Hpre & _ & Hall).
  pose proof (burstApply_snoc_fresh _ _ _ Hfresh) as Hdid.
  pose proof (apply_lineage_new dlbl dinv Durable did _ Hdid _ Hpre) as Hl1.
  pose proof (apply_valid dlbl dinv Durable did _ Hdid (burstApply_valid _ _ Hfb Hv0)) as Hv1.
  destruct (ancestorAfter_spec g0 _ l0 k Hl0) as (n0 & Hin & _).
  pose proof (lineage_lookup _ _ _ _ _ Hl0 Hin) as Hn0.
  exists (ancestorAfter l0 k).
  split; [now apply getLastN_lineage |].
  split.
  - rewrite (getLastN_lineage _ _ (k + 1) Hv1 Hl1). rewrite Nat.add_1_r.
    cbn [ancestorAfter parentId kind]. now rewrite (ancestorAfter_skip _ _ _ Hall).
  - split; [eauto |]. split.
    + intros Hin'. rewrite (freshIds_elem g0 (map fst burst) _ Hfb Hin') in Hn0.
      discriminate.
    + intros Heq. rewrite Heq in Hn0.
      rewrite (freshIds_elem g0 _ did Hfresh) in Hn0; [discriminate |].
      apply elem_of_app. right. apply list_elem_of_here.
Qed.

Lemma burstApply_cons i ln burst g :
  burstApply ((i, ln) :: burst) g = burstApply burst (debouncedApply_body i ln g).
Proof. reflexivity. Qed.

Lemma getState_burstApply_old burst g id n :
  freshIds g (map fst burst) = true -> validGraph g = true ->
  nodes g !! id = Some n ->
  getState reg (burstApply burst g) id = getState reg g id.
Proof.
  revert g. induction burst as [|[i ln] burst IH]; intros g Hf Hv Hn; [reflexivity |].
  rewrite burstApply_cons. cbn [map fst] in Hf.
  pose proof (freshIds_cons _ _ _ Hf) as (Hi & _ & _).
  rewrite (IH (debouncedApply_body i ln g) (freshIds_apply _ _ _ _ _ _ Hf)
              (apply_valid _ _ _ _ _ Hi Hv) (apply_lookup_old _ _ _ _ _ Hi _ _ Hn)).
  eapply getState_apply_old; eauto.
Qed.

(** A pointer move while drawing empties the undo stack, extends the
    last stroke, and hands the new stroke list to the throttled apply,
    which, when it runs, appends an ephemeral [draw] node carrying it. *)
Lemma handleMouseMove_drawing pos fire s lastLine :
  isDrawing s = true -> last (lines s) = Some lastLine ->
  exists s',
    handleMouseMove pos fire s = Ok s' /\
    lines s' = removelast (lines s) ++ [addPoint pos lastLine] /\
    undoStack s' = [] /\
    match fire with
    | Some nid =>
      trrack s' = debouncedApply_body nid (lines s') (trrack s) /\
      nodes (trrack s') !! nid =
        Some (mkNode (Some (currentNodeId (trrack s))) Ephemeral "drawing"
                     (Some (mkInvocation "draw" (lines s')))) /\
      pendingDraw s' = None
    | None => trrack s' = trrack s /\ pendingDraw s' = Some (lines s')
    end.
Proof.
  intros Hd Hl. unfold handleMouseMove.
  destruct (String.eqb (tool s) "eraser"); cbn; rewrite Hd, Hl; cbn;
    (eexists; split; [reflexivity |]);
    destruct fire; cbn; repeat split; try reflexivity; apply lookup_insert_eq.
Qed.

(** A run of pointer moves during a stroke is a burst on the graph. *)
Lemma pointerMoves_burst moves s lastLine :
  isDrawing s = true -> last (lines s) = Some lastLine ->
  exists s' burst,
    pointerMoves moves s = Ok s' /\
    map fst burst = map snd moves /\
    trrack s' = burstApply burst (trrack s) /\
    (moves <> [] -> undoStack s' = []) /\
    isDrawing s' = true /\ is_Some (last (lines s')).
Proof.
  revert s lastLine. induction moves as [|[pos nid] moves IH]; intros s lastLine Hd Hl.
  - exists s, []. repeat split; eauto. congruence.
  - destruct (handleMouseMove_drawing pos (Some nid) s lastLine Hd Hl)
      as (s1 & Hmove & Hlines & Hstack & Htr & _ & _).
    assert (Hd1 : isDrawing s1 = true).
    { revert Hmove. unfold handleMouseMove.
      destruct (String.eqb (tool s) "eraser"); cbn; rewrite Hd, Hl; cbn;
        now intros [= <-]. }
    assert (Hl1 : last (lines s1) = Some (addPoint pos lastLine))
      by (rewrite Hlines; apply last_snoc).
    destruct (IH s1 _ Hd1 Hl1) as (s' & burst & Hrun & Hids & Hg & Hst & Hd' & Hl').
    exists s', ((nid, lines s1) :: burst).
    cbn [pointerMoves]. rewrite Hmove. cbn [mbind outcome_bind].
    split; [exact Hrun |]. split; [cbn [map fst snd]; now rewrite Hids |].
    split; [rewrite burstApply_cons; now rewrite Hg, Htr |].
    split; [| split; assumption].
    intros _. destruct moves as [|m moves]; [| apply Hst; discriminate].
    cbn in Hrun. now injection Hrun as <-.
Qed.

(** A stroke with at least one pointer move that reaches [apply],
    completed by pointer-up, then one click on undo: the working lines
    are those resolved at the non-ephemeral node nearest to (or at) the
    node that was current before the stroke. *)
Lemma stroke_then_undo moves did uid s lastLine :
  wellFormed (trrack s) = true ->
  isDrawing s = true -> last (lines s) = Some lastLine ->
  moves <> [] ->
  freshIds (trrack s) (map snd moves ++ [did; uid]) = true ->
  exists s1 s2 target prevState,
    pointerMoves moves s = Ok s1 /\
    undoClick uid (handleMouseUp did s1) = Ok s2 /\
    getLastNNonEphemeralNode (trrack s) 0 = Ok target /\
    (target ∉ map snd moves) /\
    getState reg (trrack s) target = Ok prevState /\
    lines s2 = state_lines prevState /\
    undoStack s2 = [did].
Proof.
  intros Hw Hd Hl Hne Hfresh. pose proof (wellFormed_valid _ Hw) as Hv.
  destruct (pointerMoves_burst moves s lastLine Hd Hl)
    as (s1 & burst & Hrun & Hids & Hg & Hstack & _ & _).
  specialize (Hstack Hne). rewrite <- Hids in Hfresh.
  assert (Hfd : freshIds (trrack s) (map fst burst ++ [did]) = true).
  { change [did; uid] with ([did] ++ [uid]) in Hfresh. rewrite app_assoc in Hfresh.
    eapply freshIds_app_l; eauto. }
  pose proof (freshIds_app_l _ _ _ Hfd) as Hfb.
  assert (Hw1 : wellFormed (trrack s1) = true)
    by (rewrite Hg; now apply burstApply_wellFormed).
  assert (Hdid : nodes (trrack s1) !! did = None)
    by (rewrite Hg; now apply burstApply_snoc_fresh).
  set (s1' := handleMouseUp did s1).
  assert (Hw1' : wellFormed (trrack s1') = true) by now apply handleMouseUp_wellFormed.
  assert (Huid : nodes (trrack s1') !! uid = None).
  { unfold s1', handleMouseUp. cbn [trrack setAnswer setTrrack setIsDrawing apply nodes].
    rewrite lookup_insert_ne.
    - rewrite Hg. apply burstApply_snoc_fresh.
      unfold freshIds in *. apply andb_true_iff in Hfresh as [Hnd Hall].
      apply bool_decide_eq_true in Hnd.
      apply andb_true_iff. split.
      + apply bool_decide_eq_true.
        apply NoDup_app in Hnd as (Hnb & Hdisj & Hnd2).
        apply NoDup_app. repeat split; [exact Hnb | | apply NoDup_singleton].
        intros x Hx Hx'. apply list_elem_of_singleton in Hx'. subst x.
        apply (Hdisj uid Hx). apply list_elem_of_further, list_elem_of_here.
      + rewrite forallb_app in *. apply andb_true_iff in Hall as [Ha Hb].
        rewrite Ha. cbn [forallb] in *. apply andb_true_iff in Hb as [_ Hb]. exact Hb.
    - intros ->. unfold freshIds in Hfresh. apply andb_true_iff in Hfresh as [Hnd _].
      apply bool_decide_eq_true in Hnd. apply NoDup_app in Hnd as (_ & _ & Hnd).
      apply NoDup_cons in Hnd as [Hni _]. apply Hni, list_elem_of_here. }
  destruct (undoClick_run uid s1' Hw1' Huid)
    as (target & tnode & prevState & Htarget & Htn & _ & Hprev & Hclick);
    [unfold s1', handleMouseUp, current, isStateNode;
     cbn [trrack setAnswer setTrrack setIsDrawing apply nodes currentNodeId];
     rewrite lookup_insert_eq; reflexivity |].
  destruct (burst_target (trrack s) burst did "draw end"
              (drawEnd actions (lines s1)) 0 Hv Hfd)
    as (t & Ht0 & Ht1 & [n0 Hn0] & Hnb & _).
  assert (Hsame : trrack s1' =
            apply "draw end" (drawEnd actions (lines s1)) Durable did
                  (burstApply burst (trrack s)))
    by (unfold s1', handleMouseUp; cbn [trrack setAnswer setTrrack setIsDrawing];
        now rewrite Hg).
  assert (Hst1' : undoStack s1' = []) by exact Hstack.
  rewrite Hst1', Hsame in Htarget. cbn [length Nat.add] in Htarget.
  change (0 + 1) with 1 in Ht1. rewrite Htarget in Ht1. injection Ht1 as <-.
  eexists s1, _, target, prevState.
  split; [exact Hrun |]. split; [exact Hclick |].
  split; [exact Ht0 |]. split; [now rewrite <- Hids |].
  split.
  - rewrite <- Hprev, Hsame.
    rewrite (getState_apply_old _ _ _ _ _ target n0).
    + symmetry. eapply getState_burstApply_old; eauto.
    + now apply burstApply_snoc_fresh.
    + now apply burstApply_valid.
    + now apply burstApply_lookup_old.
  - split; [reflexivity |]. cbn [undoStack setUndoStack]. rewrite Hst1'.
    rewrite Hsame. reflexivity.
Qed.



(** *** The undo affordance *)

(** C4 as stated (disabled exactly when the node found after skipping
    [undoStack.length + 1] durable steps is the root) fails after the
    first completed stroke: with an empty undo stack, skipping one durable
    step from ["n1"] reaches the root, yet undo is enabled. *)
Lemma undo_disabled_counterexample :
  wellFormed (trrack session1) = true /\
  getLastNNonEphemeralNode (trrack session1) (length (undoStack session1) + 1) = Ok "root" /\
  isRootNode (nodes (trrack session1) !! "root") = Ok true /\
  undoDisabled session1 = Ok false.
Proof. repeat split; vm_compute; reflexivity. Qed.

(** C4, amended. Undo is disabled exactly when the node found after
    skipping [undoStack.length] durable steps from the current node is the
    root, that is, when at most [undoStack.length] durable state nodes lie
    between the current node and the root; neither the test nor a click
    on undo throws. *)
Theorem undo_disabled_spec (s : Canvas) :
  wellFormed (trrack s) = true ->
  exists l target tnode,
    lineage (trrack s) (currentNodeId (trrack s)) l /\
    getLastNNonEphemeralNode (trrack s) (length (undoStack s)) = Ok target /\
    nodes (trrack s) !! target = Some tnode /\
    undoDisabled s = Ok (bool_decide (parentId tnode = None)) /\
    (undoDisabled s = Ok true <-> durableCount l <= length (undoStack s)) /\
    (forall nid, exists s', undoClick nid s = Ok s').
Proof.
  intros Hw. pose proof (wellFormed_valid _ Hw) as Hv.
  destruct (getLastN_total (trrack s) (length (undoStack s)) Hv)
    as (l & target & tnode & Hl & Htarget & Htn & Hkind).
  exists l, target, tnode.
  assert (Hd : undoDisabled s = Ok (bool_decide (parentId tnode = None))).
  { unfold undoDisabled. rewrite Htarget. cbn. rewrite Htn. reflexivity. }
  repeat (split; [assumption |]). split.
  - rewrite Hd. destruct Hkind as [[Hp Hc] | ([p Hp] & _ & Hc)].
    + rewrite bool_decide_eq_true_2 by exact Hp. tauto.
    + rewrite bool_decide_eq_false_2 by congruence.
      split; [discriminate | lia].
  - intros nid. unfold undoClick.
    destruct (getLastN_total (trrack s) (length (undoStack s) + 1) Hv)
      as (_ & t1 & n1 & _ & -> & Hn1 & _).
    destruct (valid_current _ Hv) as [c Hc]. unfold current. rewrite Hc. cbn.
    destruct (bool_decide (is_Some (parentId c))); [| eauto].
    destruct (getState_total _ _ _ Hw Hn1) as (st & -> & _). cbn. eauto.
Qed.

Lemma undo_disabled_spec_witness :
  wellFormed (trrack session1u) = true /\
  undoDisabled session1 = Ok false /\
  undoDisabled session1u = Ok true.
Proof.
  assert (Hw : wellFormed (trrack session1u) = true) by (vm_compute; reflexivity).
  split; [exact Hw |].
  split; [vm_compute; reflexivity |].
  destruct (undo_disabled_spec session1u Hw) as (l & t & n & _ & Ht & Hn & Hd & _).
  rewrite Hd. vm_compute in Ht. injection Ht as <-.
  vm_compute in Hn. injection Hn as <-. reflexivity.
Defined.

(** *** Redo *)

(** What a click on redo does on a well-formed graph with a non-empty
    undo stack. *)
Lemma redoClick_spec (nid : string) (s : Canvas) (rest : list string) (top : string) (n : HistoryNode) :
  wellFormed (trrack s) = true ->
  undoStack s = rest ++ [top] ->
  nodes (trrack s) !! top = Some n ->
  exists newState,
    getState reg (trrack s) top = Ok newState /\
    redoClick nid s =
      Ok (setUndoStack rest (setLines (state_lines newState)
            (setTrrack (apply "redo" (mkInvocation "undo" (state_lines newState))
                              Ephemeral nid (trrack s)) s))).
Proof.
  intros Hw Hstack Hn.
  destruct (getState_total _ _ _ Hw Hn) as (newState & Hst & _).
  exists newState. split; [exact Hst |].
  unfold redoClick. rewrite Hstack, last_snoc, removelast_last. cbn.
  rewrite Hst. reflexivity.
Qed.

Lemma redoDisabled_spec (s : Canvas) : redoDisabled s = true <-> undoStack s = [].
Proof.
  unfold redoDisabled. rewrite Nat.eqb_eq. split.
  - now intros H%length_zero_iff_nil.
  - now intros ->.
Qed.

(** C2, on the code. After one stroke and one undo, a click on redo pops
    ["n1"], resolves its state and appends an ephemeral node labelled
    ["redo"], but the invocation it records is the one of the [undo]
    mutator: the handle [actions.redo] is never invoked. *)
Theorem redo_click_records_undo_mutator :
  undoStack session1u = ["n1"] /\
  redoDisabled session1u = false /\
  exists s', redoClick "r1" session1u = Ok s' /\
    nodes (trrack s') !! "r1" =
      Some (mkNode (Some "u1") Ephemeral "redo" (Some (undo actions stroke1))) /\
    undo actions stroke1 = mkInvocation "undo" stroke1 /\
    redo actions stroke1 = mkInvocation "redo" stroke1 /\
    lines s' = stroke1 /\
    undoStack s' = [].
Proof.
  split; [vm_compute; reflexivity |]. split; [vm_compute; reflexivity |].
  eexists. split; [vm_compute; reflexivity |].
  repeat split; vm_compute; reflexivity.
Qed.

(** *** The undo stack under new durable actions *)

Lemma clearClick_undoStack nid s : undoStack (clearClick nid s) = undoStack s.
Proof. reflexivity. Qed.

Lemma handleMouseUp_undoStack nid s : undoStack (handleMouseUp nid s) = undoStack s.
Proof. reflexivity. Qed.

Lemma handleMouseDown_undoStack toNumber pos s :
  undoStack (handleMouseDown toNumber pos s) = undoStack s.
Proof. destruct pos; reflexivity. Qed.

(** C3, on the code. With ["n1"] on the undo stack (one stroke, one
    undo), neither a click on "Clear all" nor a press and release
    without a move empties the undo stack, so redo stays enabled; a
    pointer move during a stroke does empty it. *)
Theorem durable_actions_keep_undo_stack :
  undoStack session1u = ["n1"] /\
  undoStack (clearClick "c1" session1u) = ["n1"] /\
  redoDisabled (clearClick "c1" session1u) = false /\
  undoStack (handleMouseUp "n2" (handleMouseDown (fun _ => 5%Z) (Some (3, 3)%Z) session1u))
    = ["n1"] /\
  redoDisabled (handleMouseUp "n2" (handleMouseDown (fun _ => 5%Z) (Some (3, 3)%Z) session1u))
    = false /\
  exists s', handleMouseMove (4, 4)%Z None
               (handleMouseDown (fun _ => 5%Z) (Some (3, 3)%Z) session1u) = Ok s' /\
             undoStack s' = [].
Proof.
  repeat (split; [vm_compute; reflexivity |]).
  eexists. split; vm_compute; reflexivity.
Qed.

(** *** Session start *)

Lemma getState_createRoot rid st : getState reg (createRoot rid st) rid = Ok st.
Proof.
  unfold getState, createRoot. cbn [nodes rootState].
  rewrite map_size_singleton. cbn [invocationChain nodes].
  rewrite lookup_singleton_eq. reflexivity.
Qed.

Lemma orDefault_toolName t d : orDefault (toolName t) d = toolName t.
Proof. destruct t; reflexivity. Qed.

Lemma initCanvas_no_responseId rid storedAnswers :
  initCanvas rid "" storedAnswers = Ok (freshCanvas (createRoot rid initialState)).
Proof. reflexivity. Qed.

(** With a [responseId] that no answer key starts with, the block reads
    a property of [undefined] and throws. *)
Lemma initCanvas_no_entry :
  initCanvas "root" "drawing" [("intro_0", mkStoredAnswer None)] = Throw TypeError.
Proof. reflexivity. Qed.

(** What the session-start block does when the answer entry exists:
    with a stored graph it imports it and takes lines and tool from the
    state resolved at the imported graph's current node, pen size and
    color too unless they are empty; without one it starts from the fresh
    root, whose state is [{lines: [], tool: 'pen', color: red, penSize:
    '5'}]. *)
Lemma session_start_with_entry (rid responseId key : string)
  (storedAnswers : list (string * StoredAnswer)) (stored : StoredAnswer) :
  responseId <> "" ->
  List.find (String.prefix responseId) (map fst storedAnswers) = Some key ->
  lookupAnswer key storedAnswers = Some stored ->
  match stimulus stored with
  | Some serialized =>
    wellFormed serialized = true ->
    exists state,
      getState reg serialized (currentNodeId serialized) = Ok state /\
      initCanvas rid responseId storedAnswers =
        Ok (mkCanvas (toolName (state_tool state))
                     (orDefault (state_penSize state) "5")
                     (state_lines state)
                     (orDefault (state_color state) red5)
                     (0, 0)%Z false [] serialized None None)
  | None =>
    getState reg (createRoot rid initialState) rid = Ok (mkKonvaState [] Pen red5 "5") /\
    initCanvas rid responseId storedAnswers =
      Ok (mkCanvas "pen" "5" [] red5 (0, 0)%Z false [] (createRoot rid initialState) None None)
  end.
Proof.
  intros Hr Hfind Hlook. unfold initCanvas.
  destruct (decide (responseId = "")) as [|_]; [contradiction |].
  rewrite Hfind. change (default "" (Some key)) with key. rewrite Hlook.
  destruct (stimulus stored) as [serialized|].
  - intros Hw. pose proof (wellFormed_valid _ Hw) as Hv.
    destruct (valid_current _ Hv) as [c Hc].
    destruct (getState_total _ _ _ Hw Hc) as (state & Hst & _).
    exists state. split; [exact Hst |].
    unfold importObject. rewrite Hv. cbn. rewrite Hst. cbn.
    rewrite orDefault_toolName. reflexivity.
  - split; [apply getState_createRoot |].
    cbn. change (currentNodeId (createRoot rid initialState)) with rid.
    rewrite getState_createRoot. reflexivity.
Qed.

(** On a graph that grew from the component's own root state, the
    defaults never apply: the working lines, tool, pen size and color
    are exactly the state resolved at the imported graph's current
    node. *)
Lemma session_start_own_graph (rid responseId key : string)
  (storedAnswers : list (string * StoredAnswer)) (serialized : ProvenanceGraph) :
  responseId <> "" ->
  List.find (String.prefix responseId) (map fst storedAnswers) = Some key ->
  lookupAnswer key storedAnswers = Some (mkStoredAnswer (Some serialized)) ->
  wellFormed serialized = true ->
  rootState serialized = initialState ->
  exists state,
    getState reg serialized (currentNodeId serialized) = Ok state /\
    initCanvas rid responseId storedAnswers =
      Ok (mkCanvas (toolName (state_tool state)) (state_penSize state)
                   (state_lines state) (state_color state)
                   (0, 0)%Z false [] serialized None None).
Proof.
  intros Hr Hfind Hlook Hw Hroot.
  pose proof (session_start_with_entry rid _ _ _ _ Hr Hfind Hlook) as H.
  cbn [stimulus] in H. destruct (H Hw) as (state & Hst & Hinit).
  exists state. split; [exact Hst |]. rewrite Hinit.
  destruct (valid_current _ (wellFormed_valid _ Hw)) as [c Hc].
  destruct (getState_total _ _ _ Hw Hc) as (st' & Hst' & _ & Hcol & Hpen).
  rewrite Hst in Hst'. injection Hst' as <-.
  rewrite Hcol, Hpen, Hroot. reflexivity.
Qed.

(** C7, on the code. The host's answers hold an entry without a stored
    graph (["intro_0"]) and the entry of the drawing (["drawing_1"]); the
    component is configured with a [responseId] that no key starts with.
    No stored graph exists for it, yet the session does not start from
    the fresh root: [find] gives [undefined], the key becomes [''],
    [answers['']] is [undefined] and reading its [provenanceGraph]
    throws. *)
Theorem session_start_missing_entry_throws :
  List.find (String.prefix "sketch") (map fst hostAnswers) = None /\
  lookupAnswer "" hostAnswers = None /\
  initCanvas "root" "sketch" hostAnswers = Throw TypeError.
Proof. repeat split; vm_compute; reflexivity. Qed.

(** ** The component as a state machine: results *)

Lemma invariant_spec s :
  invariant s = true <->
  wellFormed (trrack s) = true /\
  Forall (fun id => is_Some (nodes (trrack s) !! id)) (undoStack s).
Proof.
  unfold invariant. rewrite andb_true_iff, forallb_forall, Forall_forall.
  split; intros [Hw Hall]; (split; [exact Hw |]); intros id Hin.
  - eapply bool_decide_eq_true_1, Hall, list_elem_of_In, Hin.
  - apply bool_decide_eq_true_2, Hall, list_elem_of_In, Hin.
Qed.

Lemma undoDisabled_ok s :
  wellFormed (trrack s) = true -> exists b, undoDisabled s = Ok b.
Proof.
  intros Hw. unfold undoDisabled.
  destruct (getLastN_total (trrack s) (length (undoStack s)) (wellFormed_valid _ Hw))
    as (_ & t & n & _ & -> & Hn & _).
  cbn. rewrite Hn. cbn. eauto.
Qed.

Lemma undoClick_ok nid s :
  wellFormed (trrack s) = true -> exists s', undoClick nid s = Ok s'.
Proof.
  intros Hw. pose proof (wellFormed_valid _ Hw) as Hv. unfold undoClick.
  destruct (getLastN_total (trrack s) (length (undoStack s) + 1) Hv)
    as (_ & t & n & _ & -> & Hn & _).
  destruct (valid_current _ Hv) as [c Hc]. unfold current. rewrite Hc. cbn.
  destruct (bool_decide (is_Some (parentId c))); [| eauto].
  destruct (getState_total _ _ _ Hw Hn) as (st & -> & _). cbn. eauto.
Qed.

Lemma redoClick_ok nid s :
  invariant s = true -> undoStack s <> [] -> exists s', redoClick nid s = Ok s'.
Proof.
  intros [Hw Hall]%invariant_spec Hne.
  destruct (exists_last Hne) as (rest & top & Hstack).
  rewrite Hstack in Hall. apply Forall_app in Hall as [_ Htop].
  apply Forall_singleton in Htop as [n Hn].
  destruct (redoClick_spec nid s rest top n Hw Hstack Hn) as (st & _ & ->). eauto.
Qed.

(** What an event can do to the graph: nothing, or one [apply] of a
    registered invocation under the event's id. *)
Lemma step_graph toNumber e s s' :
  step toNumber e s = Ok s' ->
  trrack s' = trrack s \/
  exists nid lbl inv k,
    eventId e = Some nid /\ registeredInvocation inv = true /\
    trrack s' = apply lbl inv k nid (trrack s).
Proof.
  destruct e as [pos | pos fire | nid | nid | nid | nid | nid | t | p | c | ps];
    cbn [step eventId].
  - intros [= <-]. left. now destruct pos.
  - unfold handleMouseMove.
    destruct (String.eqb (tool s) "eraser"); cbn [isDrawing setMousePos lines];
      (destruct (isDrawing s); cbn [negb];
       [destruct (last (lines s)); [| discriminate] |]);
      intros [= <-]; auto;
      (destruct fire as [nid|]; [right | left; reflexivity]);
      exists nid, "drawing", (draw actions (removelast (lines s) ++ [addPoint pos l])),
        Ephemeral; repeat split; reflexivity.
  - intros [= <-]. unfold throttleTrailing. destruct (pendingDraw s) as [l|]; [| now left].
    right. exists nid, "drawing", (draw actions l), Ephemeral. repeat split; reflexivity.
  - intros [= <-]. right.
    exists nid, "draw end", (drawEnd actions (lines s)), Durable. repeat split; reflexivity.
  - intros [= <-]. right.
    exists nid, "clear", (clear actions []), Durable. repeat split; reflexivity.
  - destruct (undoDisabled s) as [[|]|]; cbn; try discriminate; [intros [= <-]; now left |].
    unfold undoClick. destruct (getLastNNonEphemeralNode _ _) as [t|]; [| discriminate]. cbn.
    destruct (isStateNode _) as [[|]|]; cbn; try discriminate; [| intros [= <-]; now left].
    destruct (getState _ _ _) as [st|]; [| discriminate]. cbn. intros [= <-]. right.
    exists nid, "undo", (undo actions (state_lines st)), Ephemeral. repeat split; reflexivity.
  - destruct (redoDisabled s); [intros [= <-]; now left |].
    unfold redoClick. destruct (getState _ _ _) as [st|]; [| discriminate]. cbn.
    intros [= <-]. right.
    exists nid, "redo", (undo actions (state_lines st)), Ephemeral. repeat split; reflexivity.
  - intros [= <-]. now left.
  - intros [= <-]. now left.
  - intros [= <-]. now left.
  - intros [= <-]. left. now destruct ps.
Qed.

(** What an event can do to the undo stack. *)
Lemma step_undoStack toNumber e s s' :
  step toNumber e s = Ok s' ->
  undoStack s' = undoStack s \/ undoStack s' = [] \/
  undoStack s' = undoStack s ++ [currentNodeId (trrack s)] \/
  undoStack s' = removelast (undoStack s).
Proof.
  destruct e as [pos | pos fire | nid | nid | nid | nid | nid | t | p | c | ps];
    cbn [step].
  - intros [= <-]. left. now destruct pos.
  - unfold handleMouseMove.
    destruct (String.eqb (tool s) "eraser"); cbn [isDrawing setMousePos lines];
      (destruct (isDrawing s); cbn [negb];
       [destruct (last (lines s)); [| discriminate] |]);
      intros [= <-]; auto; right; left; now destruct fire.
  - intros [= <-]. left. unfold throttleTrailing. now destruct (pendingDraw s).
  - intros [= <-]. now left.
  - intros [= <-]. now left.
  - destruct (undoDisabled s) as [[|]|]; cbn; try discriminate; [intros [= <-]; now left |].
    unfold undoClick. destruct (getLastNNonEphemeralNode _ _) as [t|]; [| discriminate]. cbn.
    destruct (isStateNode _) as [[|]|]; cbn; try discriminate; [| intros [= <-]; now left].
    destruct (getState _ _ _) as [st|]; [| discriminate]. cbn. intros [= <-]. auto.
  - destruct (redoDisabled s); [intros [= <-]; now left |].
    unfold redoClick. destruct (getState _ _ _) as [st|]; [| discriminate]. cbn.
    intros [= <-]. auto.
  - intros [= <-]. now left.
  - intros [= <-]. now left.
  - intros [= <-]. now left.
  - intros [= <-]. left. now destruct ps.
Qed.

Lemma Forall_removelast {A} (P : A -> Prop) (l : list A) :
  Forall P l -> Forall P (removelast l).
Proof.
  induction 1 as [|x l Hx Hl IH]; [constructor |].
  destruct l; [constructor | cbn; constructor; assumption].
Qed.

Lemma step_keeps_invariant_1 toNumber e s s' :
  invariant s = true -> eventFresh e s = true ->
  step toNumber e s = Ok s' -> invariant s' = true.
Proof.
  intros [Hw Hall]%invariant_spec Hf Hstep. apply invariant_spec.
  pose proof (wellFormed_valid _ Hw) as Hv.
  destruct (valid_current _ Hv) as [c Hc].
  assert (Hg : wellFormed (trrack s') = true /\
               forall id n, nodes (trrack s) !! id = Some n ->
                            nodes (trrack s') !! id = Some n).
  { destruct (step_graph _ _ _ _ Hstep) as [-> | (nid & lbl & inv & k & Hid & Hreg & ->)];
      [auto |].
    unfold eventFresh in Hf. rewrite Hid in Hf. apply bool_decide_eq_true in Hf.
    split; [now apply apply_wellFormed | intros id n; now apply apply_lookup_old]. }
  destruct Hg as [Hw' Hold]. split; [exact Hw' |].
  assert (Hall' : Forall (fun id => is_Some (nodes (trrack s') !! id)) (undoStack s)).
  { eapply Forall_impl; [exact Hall |]. intros id [n Hn]. eauto. }
  destruct (step_undoStack _ _ _ _ Hstep) as [-> | [-> | [-> | ->]]].
  - exact Hall'.
  - constructor.
  - apply Forall_app. split; [exact Hall' |]. constructor; [eauto | constructor].
  - now apply Forall_removelast.
Qed.

(** X1. Starting from a state whose graph is well formed and whose undo
    stack only names nodes of the graph, any run of events whose node ids
    are unused when they arrive ends in such a state. *)
Theorem run_keeps_invariant toNumber es s s' :
  invariant s = true -> runFresh toNumber es s = true ->
  run toNumber es s = Ok s' -> invariant s' = true.
Proof.
  revert s. induction es as [|e es IH]; intros s Hi Hf; cbn [run runFresh] in *.
  - now intros [= <-].
  - apply andb_true_iff in Hf as [Hf Hrest].
    destruct (step toNumber e s) as [s1|] eqn:Hstep; [| discriminate]. cbn.
    apply IH; [eapply step_keeps_invariant_1; eauto | exact Hrest].
Qed.

Lemma run_keeps_invariant_witness :
  invariant session0 = true /\
  runFresh (fun _ => 5%Z) firstEvents session0 = true /\
  exists s', run (fun _ => 5%Z) firstEvents session0 = Ok s' /\
             undoStack s' = [] /\ invariant s' = true.
Proof.
  assert (Hi : invariant session0 = true) by (vm_compute; reflexivity).
  assert (Hf : runFresh (fun _ => 5%Z) firstEvents session0 = true)
    by (vm_compute; reflexivity).
  split; [exact Hi |]. split; [exact Hf |].
  eexists. split; [vm_compute; reflexivity |]. split; [vm_compute; reflexivity |].
  apply (run_keeps_invariant (fun _ => 5%Z) firstEvents session0 _ Hi Hf).
  vm_compute; reflexivity.
Defined.

(** X2. In such a state the only event that throws is a pointer move
    that arrives while [isDrawing] is set and the stroke list is empty;
    it throws a [TypeError].  Undo and redo never throw. *)
Theorem step_throws_only_on_empty_stroke toNumber e s err :
  invariant s = true ->
  step toNumber e s = Throw err <->
  err = TypeError /\
  exists pos fire, e = PointerMove pos fire /\ isDrawing s = true /\ lines s = [].
Proof.
  intros Hi. pose proof Hi as [Hw Hall]%invariant_spec. split.
  - destruct e as [pos | pos fire | nid | nid | nid | nid | nid | t | p | c | ps];
      cbn [step]; try discriminate.
    + unfold handleMouseMove.
      destruct (String.eqb (tool s) "eraser"); cbn [isDrawing setMousePos lines];
        (destruct (isDrawing s) eqn:Hd; cbn [negb]; [| discriminate];
         destruct (last (lines s)) eqn:Hl; [discriminate |]);
        intros [= <-]; (split; [reflexivity |]); exists pos, fire;
        apply last_None in Hl; auto.
    + destruct (undoDisabled_ok s Hw) as [b ->]. cbn.
      destruct b; [discriminate |].
      destruct (undoClick_ok nid s Hw) as [s' ->]. discriminate.
    + unfold redoDisabled. destruct (undoStack s) as [|x l] eqn:Hst; [discriminate |].
      cbn [length Nat.eqb].
      destruct (redoClick_ok nid s Hi) as [s' ->]; [congruence | discriminate].
  - intros (-> & pos & fire & -> & Hd & Hl). cbn [step]. unfold handleMouseMove.
    destruct (String.eqb (tool s) "eraser"); cbn [isDrawing setMousePos lines];
      rewrite Hd, Hl; reflexivity.
Qed.

Lemma step_throws_only_on_empty_stroke_witness :
  invariant (clearClick "c1" (handleMouseDown (fun _ => 5%Z) (Some (3, 3)%Z) session1)) = true /\
  step (fun _ => 5%Z) (PointerMove (4, 4)%Z (Some "m1"))
       (clearClick "c1" (handleMouseDown (fun _ => 5%Z) (Some (3, 3)%Z) session1))
    = Throw TypeError.
Proof.
  assert (Hi : invariant (clearClick "c1"
                 (handleMouseDown (fun _ => 5%Z) (Some (3, 3)%Z) session1)) = true)
    by (vm_compute; reflexivity).
  split; [exact Hi |].
  apply (step_throws_only_on_empty_stroke (fun _ => 5%Z) _ _ TypeError Hi).
  split; [reflexivity |].
  exists (4, 4)%Z, (Some "m1"). repeat split; vm_compute; reflexivity.
Defined.

(** X3. No event removes or alters a node, or touches the root state:
    after any event every node of the graph is still there with the same
    content and resolves to the same state, and at most one node was
    added. *)
Theorem step_append_only toNumber e s s' :
  eventFresh e s = true ->
  step toNumber e s = Ok s' ->
  (forall id n, nodes (trrack s) !! id = Some n -> nodes (trrack s') !! id = Some n) /\
  rootState (trrack s') = rootState (trrack s) /\
  (size (nodes (trrack s')) = size (nodes (trrack s)) \/
   size (nodes (trrack s')) = S (size (nodes (trrack s)))) /\
  (validGraph (trrack s) = true ->
   forall id n, nodes (trrack s) !! id = Some n ->
     getState reg (trrack s') id = getState reg (trrack s) id).
Proof.
  intros Hf Hstep.
  destruct (step_graph _ _ _ _ Hstep) as [-> | (nid & lbl & inv & k & Hid & _ & ->)];
    [auto |].
  unfold eventFresh in Hf. rewrite Hid in Hf. apply bool_decide_eq_true in Hf.
  split; [intros id n; now apply apply_lookup_old |].
  split; [reflexivity |].
  split; [right; now apply apply_size |].
  intros Hv id n Hn. eapply getState_apply_old; eauto.
Qed.

Lemma step_append_only_witness :
  eventFresh (ClearAll "c1") session2 = true /\
  nodes (trrack session2) !! "m1" =
    Some (mkNode (Some "n1") Ephemeral "drawing" (Some (mkInvocation "draw" stroke2a))) /\
  nodes (trrack (clearClick "c1" session2)) !! "m1" =
    Some (mkNode (Some "n1") Ephemeral "drawing" (Some (mkInvocation "draw" stroke2a))).
Proof.
  assert (Hf : eventFresh (ClearAll "c1") session2 = true) by (vm_compute; reflexivity).
  assert (Hn : nodes (trrack session2) !! "m1" =
    Some (mkNode (Some "n1") Ephemeral "drawing" (Some (mkInvocation "draw" stroke2a))))
    by (vm_compute; reflexivity).
  split; [exact Hf |]. split; [exact Hn |].
  destruct (step_append_only (fun _ => 5%Z) (ClearAll "c1") session2
              (clearClick "c1" session2) Hf eq_refl) as (Hold & _).
  exact (Hold _ _ Hn).
Defined.

(** X4. From any state, a pointer-down that is not followed by a
    pointer-up on the stage, then a click on "Clear all", leaves the
    component drawing on an empty stroke list: the next pointer move
    throws. *)
Theorem move_after_clear_throws toNumber (s : Canvas) (pos p : Z * Z) (nid : string)
  (fire : option string) :
  run toNumber [PointerDown (Some pos); ClearAll nid; PointerMove p fire] s
  = Throw TypeError.
Proof.
  cbn [run step mbind outcome_bind]. unfold handleMouseMove, clearClick, handleMouseDown.
  cbn [tool isDrawing lines setLines setTrrack setIsDrawing setMousePos].
  destruct (String.eqb (tool s) "eraser"); reflexivity.
Qed.

(** *** Building a stroke *)

Lemma addPoints_fields ll moves :
  line_tool (addPoints ll moves) = line_tool ll /\
  line_width (addPoints ll moves) = line_width ll /\
  line_color (addPoints ll moves) = line_color ll /\
  line_points (addPoints ll moves) =
    line_points ll ++ flat_map (fun m => [fst (fst m); snd (fst m)]) moves.
Proof.
  revert ll. induction moves as [|[pos fire] moves IH]; intros ll.
  - cbn. rewrite app_nil_r. auto.
  - change (addPoints ll ((pos, fire) :: moves)) with (addPoints (addPoint pos ll) moves).
    destruct (IH (addPoint pos ll)) as (-> & -> & -> & ->).
    cbn. rewrite <- app_assoc. auto.
Qed.

Lemma strokeMoves_lines moves s pre ll :
  isDrawing s = true -> lines s = pre ++ [ll] ->
  exists s',
    strokeMoves moves s = Ok s' /\
    lines s' = pre ++ [addPoints ll moves] /\
    isDrawing s' = true /\
    tool s' = tool s /\ penSize s' = penSize s /\ color s' = color s /\
    (moves <> [] -> undoStack s' = []).
Proof.
  revert s ll. induction moves as [|[pos fire] moves IH]; intros s ll Hd Hl.
  - exists s. repeat split; auto. congruence.
  - assert (Hlast : last (lines s) = Some ll) by (rewrite Hl; apply last_snoc).
    destruct (handleMouseMove_drawing pos fire s ll Hd Hlast)
      as (s1 & Hmove & Hlines & Hstack & _).
    rewrite Hl, removelast_last in Hlines.
    assert (Hsame : isDrawing s1 = true /\ tool s1 = tool s /\
                    penSize s1 = penSize s /\ color s1 = color s).
    { revert Hmove. unfold handleMouseMove.
      destruct (String.eqb (tool s) "eraser"); cbn; rewrite Hd, Hlast; cbn;
        intros [= <-]; destruct fire; auto. }
    destruct Hsame as (Hd1 & Ht & Hp & Hc).
    destruct (IH s1 (addPoint pos ll) Hd1 Hlines)
      as (s' & Hrun & Hl' & Hd' & Ht' & Hp' & Hc' & Hst').
    exists s'. cbn [strokeMoves]. rewrite Hmove. cbn [mbind outcome_bind].
    split; [exact Hrun |]. split; [exact Hl' |]. split; [exact Hd' |].
    split; [congruence |]. split; [congruence |]. split; [congruence |].
    intros _. destruct moves as [|m moves]; [| apply Hst'; discriminate].
    cbn in Hrun. now injection Hrun as <-.
Qed.

(** X5. A pointer-down on the stage followed by any number of pointer
    moves never throws and changes the stroke list only by appending one
    stroke: its points are the pointer-down position followed by the
    positions of the moves in order, its tool and color are the selected
    ones, and its width is the pen size for the pen and eight times the
    pen size for any other tool.  The strokes drawn before are kept. *)
Theorem stroke_appends_one_line toNumber (s : Canvas) (pos : Z * Z)
  (moves : list ((Z * Z) * option string)) :
  exists s',
    strokeMoves moves (handleMouseDown toNumber (Some pos) s) = Ok s' /\
    lines s' =
      lines s ++
      [mkLine (tool s)
              ([fst pos; snd pos] ++ flat_map (fun m => [fst (fst m); snd (fst m)]) moves)
              (if String.eqb (tool s) "pen" then toNumber (penSize s)
               else (toNumber (penSize s) * 8)%Z)
              (color s)] /\
    isDrawing s' = true.
Proof.
  set (ll := mkLine (tool s) [fst pos; snd pos]
               (if String.eqb (tool s) "pen" then toNumber (penSize s)
                else (toNumber (penSize s) * 8)%Z) (color s)).
  destruct (strokeMoves_lines moves (handleMouseDown toNumber (Some pos) s) (lines s) ll)
    as (s' & Hrun & Hl & Hd & _); [reflexivity | reflexivity |].
  exists s'. split; [exact Hrun |]. split; [| exact Hd].
  rewrite Hl. destruct (addPoints_fields ll moves) as (Ht & Hw & Hc & Hp).
  destruct (addPoints ll moves) as [t pts w c]. cbn in Ht, Hw, Hc, Hp. subst. reflexivity.
Qed.

(** *** Undo followed by redo *)

(** X6. On a well-formed graph whose current node is a state node, a
    click on undo followed by a click on redo restores the undo stack,
    sets the working lines to the lines resolved at the node that was
    current before the undo, and leaves a current node that resolves to
    the same state as that node; the graph has grown by two nodes. *)
Theorem undo_then_redo (u r : string) (s : Canvas) :
  wellFormed (trrack s) = true ->
  isStateNode (current (trrack s)) = Ok true ->
  freshIds (trrack s) [u; r] = true ->
  exists st s1 s2,
    getState reg (trrack s) (currentNodeId (trrack s)) = Ok st /\
    undoClick u s = Ok s1 /\
    redoClick r s1 = Ok s2 /\
    undoStack s2 = undoStack s /\
    lines s2 = state_lines st /\
    currentNodeId (trrack s2) = r /\
    getState reg (trrack s2) r = Ok st /\
    size (nodes (trrack s2)) = S (S (size (nodes (trrack s)))).
Proof.
  intros Hw Hst Hfresh. pose proof (wellFormed_valid _ Hw) as Hv.
  pose proof (freshIds_cons _ _ _ Hfresh) as (Hu & Hur & Hfr).
  pose proof (freshIds_cons _ _ _ Hfr) as (Hr & _ & _).
  assert (Hne : u <> r) by (intros ->; apply Hur, list_elem_of_here).
  destruct (valid_current _ Hv) as [c Hc].
  destruct (getState_total _ _ _ Hw Hc) as (st & Hcur & _).
  destruct (undoClick_run u s Hw Hu Hst)
    as (target & tnode & prevState & _ & _ & _ & _ & Hundo).
  set (g1 := apply "undo" (mkInvocation "undo" (state_lines prevState))
                   Ephemeral u (trrack s)) in *.
  set (s1 := setUndoStack _ _) in Hundo.
  assert (Hw1 : wellFormed (trrack s1) = true)
    by (apply (apply_wellFormed _ _ _ _ _ Hu); [reflexivity | exact Hw]).
  assert (Hc1 : nodes (trrack s1) !! currentNodeId (trrack s) = Some c)
    by now apply (apply_lookup_old _ _ _ _ _ Hu).
  destruct (redoClick_spec r s1 (undoStack s) (currentNodeId (trrack s)) c Hw1 eq_refl Hc1)
    as (newState & Hnew & Hredo).
  assert (Hsame : newState = st).
  { change (trrack s1) with g1 in Hnew. unfold g1 in Hnew.
    rewrite (getState_apply_old _ _ _ _ _ _ c Hu Hv Hc), Hcur in Hnew. congruence. }
  subst newState.
  assert (Hr1 : nodes (trrack s1) !! r = None).
  { change (trrack s1) with g1. unfold g1, apply. cbn [nodes].
    rewrite lookup_insert_ne; [exact Hr | exact Hne]. }
  eexists st, s1, _. split; [exact Hcur |]. split; [exact Hundo |].
  split; [exact Hredo |]. split; [reflexivity |]. split; [reflexivity |].
  split; [reflexivity |]. split.
  - cbn [trrack setUndoStack setLines setTrrack].
    rewrite (getState_apply_new _ _ _ _ _ Hr1 (wellFormed_valid _ Hw1)).
    change (trrack s1) with g1. change (currentNodeId g1) with u. unfold g1.
    rewrite (getState_apply_new _ _ _ _ _ Hu Hv), Hcur. cbn. now destruct st.
  - cbn [trrack setUndoStack setLines setTrrack].
    rewrite (apply_size _ _ _ _ _ Hr1). change (trrack s1) with g1. unfold g1.
    now rewrite (apply_size _ _ _ _ _ Hu).
Qed.

Lemma undo_then_redo_witness :
  wellFormed (trrack session2) = true /\
  isStateNode (current (trrack session2)) = Ok true /\
  freshIds (trrack session2) ["u1"; "r1"] = true /\
  exists s1 s2,
    undoClick "u1" session2 = Ok s1 /\ redoClick "r1" s1 = Ok s2 /\
    lines s1 = stroke1 /\ lines s2 = stroke2 /\ undoStack s2 = [].
Proof.
  assert (Hw : wellFormed (trrack session2) = true) by (vm_compute; reflexivity).
  assert (Hs : isStateNode (current (trrack session2)) = Ok true) by (vm_compute; reflexivity).
  assert (Hf : freshIds (trrack session2) ["u1"; "r1"] = true) by (vm_compute; reflexivity).
  repeat (split; [assumption |]).
  destruct (undo_then_redo "u1" "r1" session2 Hw Hs Hf)
    as (st & s1 & s2 & Hst & Hundo & Hredo & Hstack & Hlines & _).
  exists s1, s2. split; [exact Hundo |]. split; [exact Hredo |].
  vm_compute in Hst. injection Hst as <-.
  split; [| split; [exact Hlines | exact Hstack]].
  vm_compute in Hundo. injection Hundo as <-. reflexivity.
Defined.

(** *** Consecutive undos *)

Lemma undoClicks_walk ids :
  forall s l,
    wellFormed (trrack s) = true ->
    isStateNode (current (trrack s)) = Ok true ->
    freshIds (trrack s) ids = true ->
    lineage (trrack s) (currentNodeId (trrack s)) l ->
    ids <> [] ->
    exists s' st,
      undoClicks ids s = Ok s' /\
      getState reg (trrack s) (ancestorAfter l (length (undoStack s) + length ids)) = Ok st /\
      lines s' = state_lines st /\
      length (undoStack s') = length (undoStack s) + length ids.
Proof.
  induction ids as [|id rest IH]; intros s l Hw Hst Hf Hl Hne; [congruence |].
  pose proof (wellFormed_valid _ Hw) as Hv.
  pose proof (freshIds_cons _ _ _ Hf) as (Hid & _ & _).
  destruct (undoClick_run id s Hw Hid Hst)
    as (target & tnode & prevState & Htarget & Htn & _ & Hprev & Hundo).
  rewrite (getLastN_lineage _ _ _ Hv Hl) in Htarget. injection Htarget as Htarget.
  set (inv := mkInvocation "undo" (state_lines prevState)) in *.
  set (s1 := setUndoStack _ _) in Hundo.
  cbn [undoClicks]. rewrite Hundo. cbn [mbind outcome_bind].
  destruct rest as [|id2 rest].
  - exists s1, prevState. cbn [undoClicks length].
    split; [reflexivity |]. split; [now rewrite Htarget |]. split; [reflexivity |].
    unfold s1. cbn [undoStack setUndoStack]. rewrite length_app. reflexivity.
  - assert (Hw1 : wellFormed (trrack s1) = true)
      by (apply (apply_wellFormed _ _ _ _ _ Hid); [reflexivity | exact Hw]).
    assert (Hst1 : isStateNode (current (trrack s1)) = Ok true).
    { unfold current, s1. cbn [trrack setUndoStack setLines setTrrack apply nodes currentNodeId].
      rewrite lookup_insert_eq. reflexivity. }
    pose proof (apply_lineage_new "undo" inv Ephemeral id _ Hid _ Hl) as Hl1.
    destruct (IH s1 _ Hw1 Hst1 (freshIds_apply _ _ _ _ _ _ Hf) Hl1)
      as (s' & st & Hrun & Hres & Hlines & Hlen); [discriminate |].
    exists s', st. split; [exact Hrun |].
    assert (Hk : length (undoStack s1) + length (id2 :: rest)
                 = length (undoStack s) + length (id :: id2 :: rest)).
    { unfold s1. cbn [undoStack setUndoStack]. rewrite length_app. cbn [length]. lia. }
    rewrite Hk in Hres, Hlen. split; [| split; [exact Hlines | exact Hlen]].
    cbn [ancestorAfter parentId kind] in Hres.
    destruct (ancestorAfter_spec _ _ l
                (length (undoStack s) + length (id :: id2 :: rest)) Hl) as (n & Hin & _).
    rewrite <- Hres. symmetry.
    apply (getState_apply_old _ _ _ _ _ _ n Hid Hv).
    eapply lineage_lookup; eauto.
Qed.

(** X7. Consecutive clicks on undo walk back one durable step each: on a
    well-formed graph whose current node is a state node, [k >= 1] clicks
    never throw, push [k] ids on the undo stack, and leave as working
    lines the lines resolved at the node found from the original current
    node by skipping [undoStack.length + k] durable steps. *)
Theorem undo_clicks_walk_back (ids : list string) (s : Canvas) :
  wellFormed (trrack s) = true ->
  isStateNode (current (trrack s)) = Ok true ->
  freshIds (trrack s) ids = true ->
  ids <> [] ->
  exists s' target st,
    undoClicks ids s = Ok s' /\
    getLastNNonEphemeralNode (trrack s) (length (undoStack s) + length ids) = Ok target /\
    getState reg (trrack s) target = Ok st /\
    lines s' = state_lines st /\
    length (undoStack s') = length (undoStack s) + length ids.
Proof.
  intros Hw Hst Hf Hne. pose proof (wellFormed_valid _ Hw) as Hv.
  destruct (valid_current _ Hv) as [c Hc].
  destruct (valid_lineage _ _ _ Hv Hc) as (l & Hl & _).
  destruct (undoClicks_walk ids s l Hw Hst Hf Hl Hne) as (s' & st & Hrun & Hres & Hrest).
  exists s', (ancestorAfter l (length (undoStack s) + length ids)), st.
  split; [exact Hrun |]. split; [now apply getLastN_lineage |]. split; [exact Hres | exact Hrest].
Qed.

Lemma undo_clicks_walk_back_witness :
  wellFormed (trrack session2) = true /\
  isStateNode (current (trrack session2)) = Ok true /\
  freshIds (trrack session2) ["u1"; "u2"] = true /\
  exists s', undoClicks ["u1"; "u2"] session2 = Ok s' /\
    getLastNNonEphemeralNode (trrack session2) 2 = Ok "root" /\
    lines s' = [] /\ length (undoStack s') = 2.
Proof.
  assert (Hw : wellFormed (trrack session2) = true) by (vm_compute; reflexivity).
  assert (Hs : isStateNode (current (trrack session2)) = Ok true) by (vm_compute; reflexivity).
  assert (Hf : freshIds (trrack session2) ["u1"; "u2"] = true) by (vm_compute; reflexivity).
  repeat (split; [assumption |]).
  destruct (undo_clicks_walk_back ["u1"; "u2"] session2 Hw Hs Hf)
    as (s' & target & st & Hrun & Htarget & Hst & Hlines & Hlen); [discriminate |].
  exists s'. split; [exact Hrun |].
  vm_compute in Htarget. injection Htarget as <-.
  split; [vm_compute; reflexivity |].
  vm_compute in Hst. injection Hst as <-.
  split; [exact Hlines | exact Hlen].
Defined.

(** *** Pointer moves and the throttle *)

Lemma move_recorded pos fire s ll :
  wellFormed (trrack s) = true ->
  isDrawing s = true -> last (lines s) = Some ll ->
  (forall nid, fire = Some nid -> nodes (trrack s) !! nid = None) ->
  exists s1,
    handleMouseMove pos fire s = Ok s1 /\
    wellFormed (trrack s1) = true /\ recorded s1 /\
    isDrawing s1 = true /\ last (lines s1) = Some (addPoint pos ll) /\
    (forall x, nodes (trrack s) !! x = None -> fire <> Some x ->
               nodes (trrack s1) !! x = None).
Proof.
  intros Hw Hd Hl Hf. pose proof (wellFormed_valid _ Hw) as Hv.
  destruct (handleMouseMove_drawing pos fire s ll Hd Hl)
    as (s1 & Hmove & Hlines & _ & Hfire).
  exists s1. split; [exact Hmove |].
  split; [eapply handleMouseMove_wellFormed; eauto |].
  assert (Hd1 : isDrawing s1 = true).
  { revert Hmove. unfold handleMouseMove.
    destruct (String.eqb (tool s) "eraser"); cbn; rewrite Hd, Hl; cbn;
      intros [= <-]; now destruct fire. }
  assert (Hl1 : last (lines s1) = Some (addPoint pos ll))
    by (rewrite Hlines; apply last_snoc).
  destruct fire as [nid|].
  - destruct Hfire as (Hg & _ & Hp). specialize (Hf nid eq_refl).
    split; [| split; [exact Hd1 | split; [exact Hl1 |]]].
    + right. split; [exact Hp |]. rewrite Hg. unfold debouncedApply_body.
      change (currentNodeId (apply "drawing" (draw actions (lines s1)) Ephemeral nid (trrack s)))
        with nid.
      rewrite (getState_apply_new _ _ _ _ _ Hf Hv).
      destruct (valid_current _ Hv) as [c Hc].
      destruct (getState_total _ _ _ Hw Hc) as (st & -> & _).
      eexists. split; reflexivity.
    + intros x Hx Hne. rewrite Hg. unfold debouncedApply_body, apply. cbn [nodes].
      rewrite lookup_insert_ne; [exact Hx | congruence].
  - destruct Hfire as (Hg & Hp).
    split; [left; exact Hp | split; [exact Hd1 | split; [exact Hl1 |]]].
    intros x Hx _. now rewrite Hg.
Qed.

Lemma strokeMoves_recorded rest :
  forall m s ll,
    wellFormed (trrack s) = true ->
    isDrawing s = true -> last (lines s) = Some ll ->
    freshIds (trrack s) (omap snd (m :: rest)) = true ->
    exists s',
      strokeMoves (m :: rest) s = Ok s' /\
      wellFormed (trrack s') = true /\ recorded s' /\
      (forall x, nodes (trrack s) !! x = None -> x ∉ omap snd (m :: rest) ->
                 nodes (trrack s') !! x = None).
Proof.
  induction rest as [|m2 rest IH]; intros [pos fire] s ll Hw Hd Hl Hf.
  - destruct (move_recorded pos fire s ll Hw Hd Hl) as (s1 & Hmove & Hw1 & Hrec & _ & _ & Hnone).
    { intros nid ->. eapply freshIds_elem; [exact Hf |]. cbn. apply list_elem_of_here. }
    exists s1. cbn [strokeMoves]. rewrite Hmove. cbn [mbind outcome_bind].
    repeat split; auto. intros x Hx Hni. apply Hnone; [exact Hx |].
    intros ->. apply Hni. cbn. apply list_elem_of_here.
  - destruct (move_recorded pos fire s ll Hw Hd Hl)
      as (s1 & Hmove & Hw1 & _ & Hd1 & Hl1 & Hnone).
    { intros nid ->. eapply freshIds_elem; [exact Hf |]. cbn. apply list_elem_of_here. }
    assert (Hf1 : freshIds (trrack s1) (omap snd (m2 :: rest)) = true).
    { destruct fire as [nid|].
      - change (omap snd ((pos, Some nid) :: m2 :: rest))
          with (nid :: omap snd (m2 :: rest)) in Hf.
        pose proof (freshIds_cons _ _ _ Hf) as (_ & Hni & Hfr).
        unfold freshIds in *. apply andb_true_iff in Hfr as [Hnd Hall].
        rewrite Hnd. cbn [andb]. rewrite forallb_forall in *. intros x Hx.
        apply bool_decide_eq_true_2, Hnone.
        + eapply bool_decide_eq_true_1, Hall, Hx.
        + intros [= ->]. apply Hni, list_elem_of_In, Hx.
      - change (omap snd ((pos, None) :: m2 :: rest)) with (omap snd (m2 :: rest)) in Hf.
        unfold freshIds in *. apply andb_true_iff in Hf as [Hnd Hall].
        rewrite Hnd. cbn [andb]. rewrite forallb_forall in *. intros x Hx.
        apply bool_decide_eq_true_2, Hnone; [| discriminate].
        eapply bool_decide_eq_true_1, Hall, Hx. }
    destruct (IH m2 s1 _ Hw1 Hd1 Hl1 Hf1) as (s' & Hrun & Hw' & Hrec & Hnone').
    exists s'. cbn [strokeMoves]. rewrite Hmove. cbn [mbind outcome_bind].
    split; [exact Hrun |]. split; [exact Hw' |]. split; [exact Hrec |].
    intros x Hx Hni. apply Hnone'.
    + apply Hnone; [exact Hx |]. intros ->. apply Hni. cbn. apply list_elem_of_here.
    + intros Hin. apply Hni. destruct fire; cbn; [apply list_elem_of_further |]; exact Hin.
Qed.

(** X8. Whatever the throttle decides for each of them, the pointer
    moves of a stroke are not lost: after at least one move while
    drawing, once the throttle's trailing call has run, nothing is left
    pending and the current node of the graph resolves to the working
    lines. *)
Theorem moves_reach_the_graph (m : (Z * Z) * option string)
  (rest : list ((Z * Z) * option string)) (nid : string) (s : Canvas) (ll : Line) :
  wellFormed (trrack s) = true ->
  isDrawing s = true -> last (lines s) = Some ll ->
  freshIds (trrack s) (omap snd (m :: rest) ++ [nid]) = true ->
  exists s1 st,
    strokeMoves (m :: rest) s = Ok s1 /\
    pendingDraw (throttleTrailing nid s1) = None /\
    lines (throttleTrailing nid s1) = lines s1 /\
    getState reg (trrack (throttleTrailing nid s1))
             (currentNodeId (trrack (throttleTrailing nid s1))) = Ok st /\
    state_lines st = lines s1.
Proof.
  intros Hw Hd Hl Hf.
  destruct (strokeMoves_recorded rest m s ll Hw Hd Hl (freshIds_app_l _ _ _ Hf))
    as (s1 & Hrun & Hw1 & Hrec & Hnone).
  pose proof (wellFormed_valid _ Hw1) as Hv1.
  assert (Hnid : nodes (trrack s1) !! nid = None).
  { apply Hnone.
    - eapply freshIds_elem; [exact Hf |]. apply elem_of_app. right. apply list_elem_of_here.
    - unfold freshIds in Hf. apply andb_true_iff in Hf as [Hnd _].
      apply bool_decide_eq_true in Hnd. apply NoDup_app in Hnd as (_ & Hdisj & _).
      intros Hin. apply (Hdisj nid Hin), list_elem_of_here. }
  exists s1. unfold throttleTrailing.
  destruct Hrec as [Hp | (Hp & st & Hst & Hlines)]; rewrite Hp.
  - cbn [pendingDraw lines trrack setPendingDraw setTrrack].
    unfold debouncedApply_body.
    change (currentNodeId (apply "drawing" (draw actions (lines s1)) Ephemeral nid (trrack s1)))
      with nid.
    rewrite (getState_apply_new _ _ _ _ _ Hnid Hv1).
    destruct (valid_current _ Hv1) as [c Hc].
    destruct (getState_total _ _ _ Hw1 Hc) as (st & -> & _).
    eexists. repeat split; try reflexivity. exact Hrun.
  - exists st. repeat split; assumption.
Qed.

Lemma moves_reach_the_graph_witness :
  wellFormed (trrack session1) = true /\
  freshIds (trrack session1) (omap snd [((4, 4)%Z, Some "m1"); ((5, 5)%Z, None)] ++ ["m2"])
    = true /\
  exists s1 st,
    strokeMoves [((4, 4)%Z, Some "m1"); ((5, 5)%Z, None)]
                (handleMouseDown (fun _ => 5%Z) (Some (3, 3)%Z) session1) = Ok s1 /\
    lines s1 = stroke2 /\
    getState reg (trrack (throttleTrailing "m2" s1)) "m2" = Ok st /\
    state_lines st = stroke2.
Proof.
  assert (Hw : wellFormed (trrack session1) = true) by (vm_compute; reflexivity).
  assert (Hf : freshIds (trrack session1)
                 (omap snd [((4, 4)%Z, Some "m1"); ((5, 5)%Z, None)] ++ ["m2"]) = true)
    by (vm_compute; reflexivity).
  split; [exact Hw |]. split; [exact Hf |].
  destruct (moves_reach_the_graph ((4, 4)%Z, Some "m1") [((5, 5)%Z, None)] "m2"
              (handleMouseDown (fun _ => 5%Z) (Some (3, 3)%Z) session1)
              (mkLine "pen" [3; 3]%Z 5 red5) Hw eq_refl eq_refl Hf)
    as (s1 & st & Hrun & _ & _ & Hst & Hlines).
  exists s1, st. split; [exact Hrun |].
  vm_compute in Hrun. injection Hrun as <-.
  split; [vm_compute; reflexivity |]. split; [exact Hst |].
  rewrite Hlines. vm_compute; reflexivity.
Defined.

(** *** Session start *)

Lemma find_prefix_app responseId (before after : list (string * StoredAnswer)) k1 a1 :
  forallb (fun kv => negb (String.prefix responseId (fst kv))) before = true ->
  String.prefix responseId k1 = true ->
  List.find (String.prefix responseId) (map fst (before ++ (k1, a1) :: after)) = Some k1 /\
  lookupAnswer k1 (before ++ (k1, a1) :: after) = Some a1.
Proof.
  intros Hb Hk. unfold lookupAnswer.
  induction before as [|[k a] before IH]; cbn [app map fst List.find forallb] in *.
  - rewrite Hk, String.eqb_refl. auto.
  - apply andb_true_iff in Hb as [Hka Hb]. apply negb_true_iff in Hka.
    rewrite Hka. destruct (String.eqb k k1) eqn:Heq.
    + apply String.eqb_eq in Heq. congruence.
    + now apply IH.
Qed.

(** X9. Session start uses the first answer key, in key order, that
    starts with [responseId], and nothing else of the host's answers:
    the entries before it and after it, whatever their keys and stored
    graphs, do not change the outcome. *)
Theorem session_start_uses_first_match (rid responseId k1 : string) (a1 : StoredAnswer)
  (before after : list (string * StoredAnswer)) :
  forallb (fun kv => negb (String.prefix responseId (fst kv))) before = true ->
  String.prefix responseId k1 = true ->
  initCanvas rid responseId (before ++ (k1, a1) :: after)
  = initCanvas rid responseId [(k1, a1)].
Proof.
  intros Hb Hk. unfold initCanvas.
  destruct (decide (responseId = "")); [reflexivity |].
  destruct (find_prefix_app responseId before after k1 a1 Hb Hk) as [-> Hl].
  destruct (find_prefix_app responseId [] [] k1 a1 eq_refl Hk) as [Hf1 Hl1].
  cbn [app] in Hf1, Hl1. rewrite Hf1.
  change (default "" (Some k1)) with k1. now rewrite Hl, Hl1.
Qed.

Lemma session_start_uses_first_match_witness :
  String.prefix "drawing" "drawing_1" = true /\
  initCanvas "root" "drawing"
    ([("intro_0", mkStoredAnswer None)]
       ++ ("drawing_1", mkStoredAnswer (Some (trrack session2)))
       :: [("drawing", mkStoredAnswer (Some (trrack session1)))])
  = initCanvas "root" "drawing" [("drawing_1", mkStoredAnswer (Some (trrack session2)))].
Proof.
  split; [reflexivity |].
  apply (session_start_uses_first_match "root" "drawing" "drawing_1"); reflexivity.
Defined.

(** X10. With a non-empty [responseId] that no answer key starts with,
    and no entry under the empty key, session start throws a
    [TypeError]. *)
Theorem session_start_without_entry_throws (rid responseId : string)
  (storedAnswers : list (string * StoredAnswer)) :
  responseId <> "" ->
  forallb (fun kv => negb (String.prefix responseId (fst kv))
                     && negb (String.eqb (fst kv) "")) storedAnswers = true ->
  initCanvas rid responseId storedAnswers = Throw TypeError.
Proof.
  intros Hr Hall. unfold initCanvas, lookupAnswer.
  destruct (decide (responseId = "")); [contradiction |].
  assert (H : List.find (String.prefix responseId) (map fst storedAnswers) = None /\
              List.find (fun kv => String.eqb (fst kv) "") storedAnswers = None).
  { induction storedAnswers as [|[k a] l IH]; [auto |].
    cbn [forallb map fst List.find] in *.
    apply andb_true_iff in Hall as [Hk Hall]. apply andb_true_iff in Hk as [Hp He].
    apply negb_true_iff in Hp, He. rewrite Hp, He. now apply IH. }
  destruct H as [-> Hnone]. change (default "" None) with "". now rewrite Hnone.
Qed.

Lemma session_start_without_entry_throws_witness :
  "sketch" <> "" /\
  initCanvas "root" "sketch" hostAnswers = Throw TypeError.
Proof.
  assert (Hr : "sketch" <> "") by discriminate.
  split; [exact Hr |].
  apply (session_start_without_entry_throws "root" "sketch" hostAnswers Hr).
  vm_compute; reflexivity.
Defined.

(** X11. Saving and restoring: when the graph handed to the host at
    pointer-up is the stored graph found at the next session start, the
    session starts on that graph with the stroke list of the pointer-up
    and an empty undo stack, with undo enabled and redo disabled.  The
    tool, pen size and color selected when the graph was saved are not
    restored: they are taken from the root state of the graph. *)
Theorem save_then_restore (nid rid responseId key : string) (s : Canvas)
  (storedAnswers : list (string * StoredAnswer)) :
  wellFormed (trrack s) = true ->
  nodes (trrack s) !! nid = None ->
  responseId <> "" ->
  List.find (String.prefix responseId) (map fst storedAnswers) = Some key ->
  lookupAnswer key storedAnswers
    = Some (mkStoredAnswer (provenanceGraph <$> answer (handleMouseUp nid s))) ->
  exists c,
    initCanvas rid responseId storedAnswers = Ok c /\
    trrack c = trrack (handleMouseUp nid s) /\
    lines c = lines s /\
    undoStack c = [] /\
    tool c = toolName (state_tool (rootState (trrack s))) /\
    penSize c = orDefault (state_penSize (rootState (trrack s))) "5" /\
    color c = orDefault (state_color (rootState (trrack s))) red5 /\
    undoDisabled c = Ok false /\
    redoDisabled c = true.
Proof.
  intros Hw Hf Hr Hfind Hlook. pose proof (wellFormed_valid _ Hw) as Hv.
  set (g' := apply "draw end" (drawEnd actions (lines s)) Durable nid (trrack s)).
  assert (Hw' : wellFormed g' = true)
    by (apply (apply_wellFormed _ _ _ _ _ Hf); [reflexivity | exact Hw]).
  pose proof (wellFormed_valid _ Hw') as Hv'.
  destruct (valid_current _ Hv) as [c0 Hc0].
  destruct (getState_total _ _ _ Hw Hc0) as (st0 & Hst0 & Ht & Hc & Hp).
  assert (Hst : getState reg g' nid = Ok (drawEndMutator st0 (lines s))).
  { unfold g'. rewrite (getState_apply_new _ _ _ _ _ Hf Hv), Hst0. reflexivity. }
  eexists. split.
  - unfold initCanvas. destruct (decide (responseId = "")); [contradiction |].
    rewrite Hfind. change (default "" (Some key)) with key. rewrite Hlook.
    cbn [stimulus handleMouseUp answer setAnswer fmap option_fmap option_map provenanceGraph].
    fold g'. unfold importObject. rewrite Hv'. cbn [mbind outcome_bind].
    change (currentNodeId g') with nid. rewrite Hst. cbn [mbind outcome_bind].
    rewrite orDefault_toolName. reflexivity.
  - cbn [trrack lines undoStack tool penSize color state_lines state_tool state_penSize
         state_color drawEndMutator].
    rewrite Ht, Hc, Hp. repeat (split; [reflexivity |]). split; [| reflexivity].
    unfold undoDisabled. cbn [trrack undoStack length].
    pose proof (apply_lineage_new "draw end" (drawEnd actions (lines s)) Durable nid _ Hf) as Hl.
    destruct (valid_lineage _ _ _ Hv Hc0) as (l & Hl0 & _). specialize (Hl l Hl0).
    fold g' in Hl. change nid with (currentNodeId g') in Hl at 1.
    rewrite (getLastN_lineage g' _ 0 Hv' Hl). cbn.
    unfold g', apply. cbn [nodes]. rewrite lookup_insert_eq. reflexivity.
Qed.

Lemma save_then_restore_witness :
  wellFormed (trrack session2e) = true /\
  nodes (trrack session2e) !! "n3" = None /\
  tool session2e = "eraser" /\ penSize session2e = "25" /\
  exists c,
    initCanvas "root" "drawing"
      [("drawing_1", mkStoredAnswer (provenanceGraph <$> answer (handleMouseUp "n3" session2e)))]
    = Ok c /\
    lines c = stroke2 /\ tool c = "pen" /\ penSize c = "5" /\ color c = red5.
Proof.
  assert (Hw : wellFormed (trrack session2e) = true) by (vm_compute; reflexivity).
  assert (Hf : nodes (trrack session2e) !! "n3" = None) by (vm_compute; reflexivity).
  assert (Hr : "drawing" <> "") by discriminate.
  split; [exact Hw |]. split; [exact Hf |].
  split; [reflexivity |]. split; [reflexivity |].
  destruct (save_then_restore "n3" "root" "drawing" "drawing_1" session2e
              [("drawing_1", mkStoredAnswer
                   (provenanceGraph <$> answer (handleMouseUp "n3" session2e)))]
              Hw Hf Hr eq_refl eq_refl)
    as (c & Hinit & _ & Hlines & _ & Ht & Hp & Hc & _).
  exists c. split; [exact Hinit |].
  split; [exact Hlines |]. split; [exact Ht |]. split; [exact Hp | exact Hc].
Defined.

(** *** Shape of the history *)

Lemma linear_step toNumber e s s' :
  eventFresh e s = true -> step toNumber e s = Ok s' ->
  (exists l, lineage (trrack s) (currentNodeId (trrack s)) l /\
             length l = size (nodes (trrack s))) ->
  exists l, lineage (trrack s') (currentNodeId (trrack s')) l /\
            length l = size (nodes (trrack s')).
Proof.
  intros Hf Hstep (l & Hl & Hlen).
  destruct (step_graph _ _ _ _ Hstep) as [-> | (nid & lbl & inv & k & Hid & _ & ->)];
    [eauto |].
  unfold eventFresh in Hf. rewrite Hid in Hf. apply bool_decide_eq_true in Hf.
  eexists. split; [apply (apply_lineage_new lbl inv k nid _ Hf _ Hl) |].
  rewrite (apply_size _ _ _ _ _ Hf). cbn. now rewrite Hlen.
Qed.

Lemma linear_run toNumber es :
  forall s s',
    runFresh toNumber es s = true -> run toNumber es s = Ok s' ->
    (exists l, lineage (trrack s) (currentNodeId (trrack s)) l /\
               length l = size (nodes (trrack s))) ->
    exists l, lineage (trrack s') (currentNodeId (trrack s')) l /\
              length l = size (nodes (trrack s')).
Proof.
  induction es as [|e es IH]; intros s s' Hf Hrun Hlin; cbn [run runFresh] in *.
  - now injection Hrun as <-.
  - apply andb_true_iff in Hf as [Hf Hrest].
    destruct (step toNumber e s) as [s1|] eqn:Hstep; [| discriminate].
    eapply IH; [exact Hrest | exact Hrun |]. eapply linear_step; eauto.
Qed.

Lemma full_lineage g id l i n :
  lineage g id l -> length l = size (nodes g) ->
  nodes g !! i = Some n -> (i, n) ∈ l.
Proof.
  intros Hl Hlen Hn.
  assert (Hperm : l.*1 ≡ₚ (map_to_list (nodes g)).*1).
  { apply submseteq_length_Permutation.
    - apply NoDup_submseteq; [eapply lineage_NoDup; eauto |].
      intros x Hx. apply list_elem_of_fmap in Hx as ([j m] & -> & Hin).
      apply (list_elem_of_fmap_2 fst _ (j, m)), elem_of_map_to_list.
      eapply lineage_lookup; eauto.
    - rewrite !length_fmap, length_map_to_list. lia. }
  assert (Hi : i ∈ l.*1).
  { rewrite Hperm. apply (list_elem_of_fmap_2 fst _ (i, n)), elem_of_map_to_list, Hn. }
  apply list_elem_of_fmap in Hi as ([j m] & Hj & Hin). cbn in Hj. subst j.
  pose proof (lineage_lookup _ _ _ _ _ Hl Hin) as Hm.
  assert (m = n) by congruence. now subst m.
Qed.

(** X12. In a session started from a fresh root the history is a single
    line: after any run of events (with node ids unused when they
    arrive), every node of the graph lies on the parent chain of the
    current node.  Undo and redo never branch the graph or move the
    current node back. *)
Theorem history_is_linear toNumber (rid : string) (es : list Event) (s' : Canvas) :
  runFresh toNumber es (freshCanvas (createRoot rid initialState)) = true ->
  run toNumber es (freshCanvas (createRoot rid initialState)) = Ok s' ->
  exists l,
    lineage (trrack s') (currentNodeId (trrack s')) l /\
    length l = size (nodes (trrack s')) /\
    forall id n, nodes (trrack s') !! id = Some n -> (id, n) ∈ l.
Proof.
  intros Hf Hrun.
  destruct (linear_run toNumber es _ _ Hf Hrun) as (l & Hl & Hlen).
  - exists [(rid, mkNode None Durable "Root" None)]. split.
    + apply lineage_root; [apply lookup_singleton_eq | reflexivity].
    + cbn [trrack freshCanvas createRoot nodes]. now rewrite map_size_singleton.
  - exists l. split; [exact Hl |]. split; [exact Hlen |].
    intros id n Hn. eapply full_lineage; eauto.
Qed.

Lemma history_is_linear_witness :
  runFresh (fun _ => 5%Z) firstEvents (freshCanvas (createRoot "root" initialState)) = true /\
  exists s' l,
    run (fun _ => 5%Z) firstEvents (freshCanvas (createRoot "root" initialState)) = Ok s' /\
    lineage (trrack s') (currentNodeId (trrack s')) l /\ length l = 6.
Proof.
  assert (Hf : runFresh (fun _ => 5%Z) firstEvents
                 (freshCanvas (createRoot "root" initialState)) = true)
    by (vm_compute; reflexivity).
  split; [exact Hf |].
  assert (Hrun : exists s', run (fun _ => 5%Z) firstEvents
                   (freshCanvas (createRoot "root" initialState)) = Ok s' /\
                 size (nodes (trrack s')) = 6)
    by (eexists; split; vm_compute; reflexivity).
  destruct Hrun as (s' & Hrun & Hsize).
  destruct (history_is_linear (fun _ => 5%Z) "root" firstEvents s' Hf Hrun)
    as (l & Hl & Hlen & _).
  exists s', l. split; [exact Hrun |]. split; [exact Hl |]. now rewrite Hlen.
Defined.

(** X13. On a well-formed graph, whenever the undo button is enabled the
    current node is a state node: the [isStateNode] guard of the click
    handler never stops an undo that the button allows, and a click
    always appends a node and pushes an id on the undo stack. *)
Theorem enabled_undo_has_state_node toNumber (nid : string) (s : Canvas) :
  wellFormed (trrack s) = true ->
  undoDisabled s = Ok false ->
  isStateNode (current (trrack s)) = Ok true /\
  exists s',
    step toNumber (UndoClick nid) s = Ok s' /\
    currentNodeId (trrack s') = nid /\
    undoStack s' = undoStack s ++ [currentNodeId (trrack s)].
Proof.
  intros Hw Hd. pose proof (wellFormed_valid _ Hw) as Hv.
  destruct (valid_current _ Hv) as [c Hc].
  assert (Hst : isStateNode (current (trrack s)) = Ok true).
  { unfold isStateNode, current. rewrite Hc. f_equal.
    destruct (parentId c) as [p|] eqn:Hp; [apply bool_decide_eq_true_2; eauto |].
    exfalso. revert Hd. unfold undoDisabled.
    rewrite (getLastN_lineage _ [(currentNodeId (trrack s), c)] _ Hv
               (lineage_root _ _ _ Hc Hp)).
    cbn. rewrite Hp. cbn. rewrite Hc. cbn. rewrite Hp.
    rewrite bool_decide_eq_true_2 by reflexivity. discriminate. }
  split; [exact Hst |]. cbn [step]. rewrite Hd. cbn [mbind outcome_bind].
  unfold undoClick.
  destruct (getLastN_total (trrack s) (length (undoStack s) + 1) Hv)
    as (_ & t & n & _ & -> & Hn & _).
  cbn [mbind outcome_bind]. rewrite Hst. cbn [mbind outcome_bind].
  destruct (getState_total _ _ _ Hw Hn) as (st & -> & _). cbn [mbind outcome_bind].
  eexists. split; [reflexivity |]. split; reflexivity.
Qed.

Lemma enabled_undo_has_state_node_witness :
  wellFormed (trrack session2) = true /\
  undoDisabled session2 = Ok false /\
  isStateNode (current (trrack session2)) = Ok true.
Proof.
  assert (Hw : wellFormed (trrack session2) = true) by (vm_compute; reflexivity).
  assert (Hd : undoDisabled session2 = Ok false) by (vm_compute; reflexivity).
  split; [exact Hw |]. split; [exact Hd |].
  exact (proj1 (enabled_undo_has_state_node (fun _ => 5%Z) "u1" session2 Hw Hd)).
Defined.

(** ** Pointer moves against the throttle's clock *)

Lemma handleMouseMove_idle pos fire s s' :
  isDrawing s = false -> handleMouseMove pos fire s = Ok s' ->
  pendingDraw s' = pendingDraw s /\ lines s' = lines s /\ trrack s' = trrack s.
Proof.
  intros Hd. unfold handleMouseMove.
  destruct (String.eqb (tool s) "eraser"); cbn [isDrawing setMousePos];
    rewrite Hd; cbn [negb]; intros [= <-]; auto.
Qed.

Lemma handleMouseMove_ok_last pos fire s s' :
  isDrawing s = true -> handleMouseMove pos fire s = Ok s' ->
  exists lastLine, last (lines s) = Some lastLine.
Proof.
  intros Hd. unfold handleMouseMove.
  destruct (String.eqb (tool s) "eraser"); cbn [isDrawing setMousePos lines];
    rewrite Hd; cbn [negb]; (destruct (last (lines s)); [eauto | discriminate]).
Qed.

(** Every run of the throttled function passes [shouldInvoke]; after a
    run made directly by a call that takes [wait]. *)
Lemma shouldInvoke_spacing c time lc now :
  shouldInvoke c time = true ->
  lastCallTime c = Some lc -> (lastInvokeTime c <= lc)%Z ->
  (lc <= now)%Z -> (now <= time)%Z ->
  (lastInvokeTime c + wait <= time)%Z.
Proof.
  unfold shouldInvoke. intros H Hlc Ha Hnow Ht. rewrite Hlc in H.
  apply orb_true_iff in H as [H | H]; [apply orb_true_iff in H as [H | H] |].
  - apply Z.leb_le in H. lia.
  - apply Z.ltb_lt in H. lia.
  - apply Z.leb_le in H. lia.
Qed.

Lemma spaced_cons s0 now t time b :
  timedInv s0 now t -> (now <= time)%Z -> at_time b = time ->
  shouldInvoke (clock t) time = true ->
  spaced (b :: applies t).
Proof.
  intros (_ & _ & _ & Hlc & Hhead & Hsp & _) Hle Hb Hinv.
  destruct (applies t) as [|a rest] eqn:Hlog; [exact I |].
  destruct Hhead as (Ha & Hale & Hdir).
  cbn [spaced]. split; [lia |]. split; [| exact Hsp].
  intros Hd. destruct (Hdir Hd) as (lc & Hlast & Hlea).
  rewrite Hb, Ha. eapply shouldInvoke_spacing; eauto. lia.
Qed.

Lemma timedInv_later s0 now now' t :
  timedInv s0 now t -> (now <= now')%Z -> timedInv s0 now' t.
Proof.
  intros (H1 & H0 & H2 & H3 & H4 & H5 & H6 & H7) Hle.
  repeat (split; [assumption |]).
  split; [intros lc Hlc; specialize (H3 lc Hlc); lia |].
  split; [| auto].
  destruct (applies t) as [|b rest]; [exact I |].
  destruct H4 as (Ha & Hb & Hc). repeat split; auto. lia.
Qed.

Lemma moveAt_inv s0 now time pos nid t t' :
  timedInv s0 now t -> (now <= time)%Z ->
  moveAt time pos nid t = Ok t' -> timedInv s0 time t'.
Proof.
  intros Hinv Hle. pose proof Hinv as (Htimer & Hlog & Hpend & Hlc & Hhead & Hsp & Hall & Hprov).
  unfold moveAt. destruct (isDrawing (canvas t)) eqn:Hd; cbn [negb].
  - destruct (shouldInvoke (clock t) time) eqn:Hsi.
    + destruct (handleMouseMove pos (Some nid) (canvas t)) as [s'|] eqn:Hmove; [| discriminate].
      cbn [mbind outcome_bind]. intros [= <-].
      destruct (handleMouseMove_ok_last _ _ _ _ Hd Hmove) as [ll Hl].
      destruct (handleMouseMove_drawing pos (Some nid) _ ll Hd Hl)
        as (s1 & Hmove' & _ & _ & Hg & Hnode & Hp).
      rewrite Hmove in Hmove'. injection Hmove' as <-.
      unfold timedInv. cbn [canvas clock applies timerId lastCallTime lastInvokeTime
                            at_time direct].
      split; [congruence |]. split; [congruence |].
      split; [intros _; now left |].
      split; [intros lc [= <-]; lia |].
      split; [repeat split; [lia | intros _; exists time; split; [reflexivity | lia]] |].
      split; [apply (spaced_cons s0 now t time); [exact Hinv | exact Hle | reflexivity | exact Hsi] |].
      split; [constructor; [cbn [after node]; eauto | exact Hall] |].
      intros id His. rewrite Hg in His. unfold debouncedApply_body, apply in His.
      cbn [nodes] in His. destruct (decide (nid = id)) as [<- | Hne].
      * right. eexists. split; [apply list_elem_of_here | reflexivity].
      * rewrite lookup_insert_ne in His by exact Hne.
        destruct (Hprov id His) as [? | (a & Ha & Hn)]; [now left |].
        right. exists a. split; [now apply list_elem_of_further | exact Hn].
    + destruct (handleMouseMove pos None (canvas t)) as [s'|] eqn:Hmove; [| discriminate].
      cbn [mbind outcome_bind]. intros [= <-].
      destruct (handleMouseMove_ok_last _ _ _ _ Hd Hmove) as [ll Hl].
      destruct (handleMouseMove_drawing pos None _ ll Hd Hl)
        as (s1 & Hmove' & _ & _ & Hg & Hp).
      rewrite Hmove in Hmove'. injection Hmove' as <-.
      unfold timedInv. cbn [canvas clock applies timerId lastCallTime lastInvokeTime].
      split; [congruence |]. split; [congruence |].
      split; [intros _; now right |].
      split; [intros lc [= <-]; lia |].
      split.
      { destruct (applies t) as [|b rest]; [exact I |].
        destruct Hhead as (Ha & Hb & _). repeat split; [exact Ha | lia |].
        intros _. exists time. split; [reflexivity | lia]. }
      split; [exact Hsp |]. split; [exact Hall |].
      intros id His. rewrite Hg in His. auto.
  - destruct (handleMouseMove pos None (canvas t)) as [s'|] eqn:Hmove; [| discriminate].
    cbn [mbind outcome_bind]. intros [= <-].
    destruct (handleMouseMove_idle _ _ _ _ Hd Hmove) as (Hp & Hl & Hg).
    destruct (timedInv_later _ _ time _ Hinv Hle) as (H1 & H0 & H2 & H3 & H4 & H5 & H6 & H7).
    unfold timedInv. cbn [canvas clock applies]. rewrite Hp, Hl, Hg.
    repeat (split; [assumption |]). exact H7.
Qed.

Lemma timerAt_inv s0 now time nid t :
  timedInv s0 now t -> (now <= time)%Z -> timedInv s0 time (timerAt time nid t).
Proof.
  intros Hinv Hle. pose proof (timedInv_later _ _ time _ Hinv Hle) as Hinv'.
  pose proof Hinv' as (Htimer & Hlog & Hpend & Hlc & Hhead & Hsp & Hall & Hprov).
  unfold timerAt. destruct (timerId (clock t)) as [d|] eqn:Htid; [| exact Hinv'].
  assert (Hcall : lastCallTime (clock t) <> None) by (apply Htimer; congruence).
  destruct (shouldInvoke (clock t) time) eqn:Hsi.
  - destruct (pendingDraw (canvas t)) as [l|] eqn:Hp.
    + assert (Hl : l = lines (canvas t)).
      { destruct (Hpend Hcall) as [H | H]; congruence. }
      subst l. unfold throttleTrailing. rewrite Hp.
      unfold timedInv. cbn [canvas clock applies timerId lastCallTime lastInvokeTime
                            at_time direct pendingDraw setPendingDraw setTrrack lines trrack].
      split; [congruence |]. split; [intros _; exact Hcall |].
      split; [intros _; now left |].
      split; [exact Hlc |].
      split; [repeat split; [lia | discriminate] |].
      split; [apply (spaced_cons s0 time t time); [exact Hinv' | lia | reflexivity | exact Hsi] |].
      split.
      { constructor; [| exact Hall].
        cbn [after node trrack setPendingDraw setTrrack lines].
        eexists. unfold debouncedApply_body, apply. cbn [nodes].
        rewrite lookup_insert_eq. reflexivity. }
      intros id His. unfold debouncedApply_body, apply in His. cbn [nodes] in His.
      destruct (decide (nid = id)) as [<- | Hne].
      * right. eexists. split; [apply list_elem_of_here | reflexivity].
      * rewrite lookup_insert_ne in His by exact Hne.
        destruct (Hprov id His) as [? | (a & Ha & Hn)]; [now left |].
        right. exists a. split; [now apply list_elem_of_further | exact Hn].
    + unfold timedInv. cbn [canvas clock applies timerId lastCallTime lastInvokeTime].
      split; [congruence |]. split; [exact Hlog |].
      split; [intros _; left; exact Hp |].
      repeat (split; [assumption |]). exact Hprov.
  - unfold timedInv. cbn [canvas clock applies timerId lastCallTime lastInvokeTime].
    split; [intros _; exact Hcall |]. repeat (split; [assumption |]). exact Hprov.
Qed.

Lemma timedRun_inv s0 es :
  forall now t t',
    timedInv s0 now t -> inOrder now es = true ->
    timedRun es t = Ok t' ->
    exists now', timedInv s0 now' t'.
Proof.
  induction es as [|e es IH]; intros now t t' Hinv Hord; cbn [timedRun inOrder] in *.
  - intros [= <-]. eauto.
  - apply andb_true_iff in Hord as [Hle Hord]. apply Z.leb_le in Hle.
    destruct (timedStep e t) as [t1|] eqn:Hstep; [| discriminate].
    cbn [mbind outcome_bind]. apply (IH (eventTime e)); [| exact Hord].
    destruct e as [time pos nid | time nid]; cbn [timedStep eventTime] in *.
    + eapply moveAt_inv; eauto.
    + injection Hstep as <-. eapply timerAt_inv; eauto.
Qed.

Lemma spaced_lookup log :
  spaced log ->
  forall i a b, log !! S i = Some a -> log !! i = Some b ->
    (at_time a <= at_time b)%Z /\ (direct a = true -> (at_time a + wait <= at_time b)%Z).
Proof.
  induction log as [|b0 rest IH]; intros Hsp i a b Ha Hb; [discriminate |].
  destruct rest as [|a0 rest]; [destruct i; discriminate |].
  destruct Hsp as (Hle & Hd & Hsp).
  destruct i as [|i].
  - cbn in Ha, Hb. injection Ha as <-. injection Hb as <-. auto.
  - apply (IH Hsp i a b); assumption.
Qed.



